(** * tq: the filter pipeline of [src/bin/tq.py]

    A shallow embedding of the class [Tq]: the builtin filters, the registry
    [get_filters], the parser [parse_filter_string] and the executor
    [apply_filters], followed by the properties of the pipeline.

    Modelling choices.
    - A Line is a [string]; its characters are the code points below 128 of a
      Python [str] (the classification and case functions of [Char] are the
      ASCII ones; a character above 127 is treated as a caseless symbol).
    - A Document is a [list string].
    - A Python [int] is a [Z].
    - An exception is a value of [exn]; a computation that may raise, or whose
      [while] loop may run for ever, returns an [outcome].  The only loop that
      is not bounded by its input is the one of [col_width]; it is given a
      number of iterations it may use ([fuel]). *)

From Stdlib Require Import ZArith Ascii.
From Stdlib Require String.
From stdpp Require Import gmap strings list sorting pretty.

(** ** Characters *)

Module Char.

Definition code (c : ascii) : nat := nat_of_ascii c.

Definition between (lo hi : nat) (c : ascii) : bool :=
  (Nat.leb lo (code c)) && (Nat.leb (code c) hi).

Definition is_upper (c : ascii) : bool := between 65 90 c.
Definition is_lower (c : ascii) : bool := between 97 122 c.
Definition is_digit (c : ascii) : bool := between 48 57 c.

(** The complement of the regular-expression class [[^a-zA-Z0-9]]. *)
Definition is_alnum (c : ascii) : bool :=
  is_lower c || is_upper c || is_digit c.

Definition is_cased (c : ascii) : bool := is_lower c || is_upper c.

(** What [str.strip], [str.lstrip] and [str.rstrip] remove when they are
    called without argument: TAB, LF, VT, FF, CR, FS, GS, RS, US, space. *)
Definition is_space (c : ascii) : bool :=
  between 9 13 c || between 28 32 c.

Definition lower (c : ascii) : ascii :=
  if is_upper c then ascii_of_nat (code c + 32) else c.

Definition upper (c : ascii) : ascii :=
  if is_lower c then ascii_of_nat (code c - 32) else c.

Definition eqb (a b : ascii) : bool := bool_decide (a = b).

End Char.

(** ** The methods of [str] the filters call *)

Module Str.

Abbreviation len := String.length.

Fixpoint map (f : ascii → ascii) (s : string) : string :=
  match s with
  | EmptyString => EmptyString
  | String c r => String (f c) (map f r)
  end.

(** [s.lower()] and [s.upper()]. *)
Definition lower : string → string := map Char.lower.
Definition upper : string → string := map Char.upper.

(** [s.capitalize()]. *)
Definition capitalize (s : string) : string :=
  match s with
  | EmptyString => EmptyString
  | String c r => String (Char.upper c) (lower r)
  end.

(** [s.title()]: a cased character is upper-cased when the character before
    it is not cased, and lower-cased otherwise. *)
Fixpoint title_go (prev_cased : bool) (s : string) : string :=
  match s with
  | EmptyString => EmptyString
  | String c r =>
      String (if prev_cased then Char.lower c else Char.upper c)
             (title_go (Char.is_cased c) r)
  end.
Definition title : string → string := title_go false.

Fixpoint take (n : nat) (s : string) : string :=
  match n, s with
  | S n', String c r => String c (take n' r)
  | _, _ => EmptyString
  end.

Fixpoint drop (n : nat) (s : string) : string :=
  match n, s with
  | S n', String _ r => drop n' r
  | _, _ => s
  end.

(** The index a slice bound [k] stands for: a negative bound counts from the
    end, and is clipped at the start of the string. *)
Definition bound (k : Z) (s : string) : nat :=
  if (0 <=? k)%Z then Z.to_nat k else len s - Z.to_nat (- k).

(** [s[:k]] and [s[k:]]. *)
Definition slice_to (k : Z) (s : string) : string := take (bound k s) s.
Definition slice_from (k : Z) (s : string) : string := drop (bound k s) s.

(** [s[::-1]]. *)
Definition reversed (s : string) : string := String.rev s.

(** [s * n]. *)
Fixpoint replicate (n : nat) (s : string) : string :=
  match n with
  | O => EmptyString
  | S n' => s +:+ replicate n' s
  end.
Definition mul (s : string) (n : Z) : string := replicate (Z.to_nat n) s.

(** [s.lstrip(..)], [s.rstrip(..)], [s.strip(..)] for a set of characters
    given by its membership test. *)
Fixpoint lstrip_by (p : ascii → bool) (s : string) : string :=
  match s with
  | EmptyString => EmptyString
  | String c r => if p c then lstrip_by p r else s
  end.

Fixpoint rstrip_by (p : ascii → bool) (s : string) : string :=
  match s with
  | EmptyString => EmptyString
  | String c r =>
      match rstrip_by p r with
      | EmptyString => if p c then EmptyString else String c EmptyString
      | r' => String c r'
      end
  end.

Definition strip_by (p : ascii → bool) (s : string) : string :=
  rstrip_by p (lstrip_by p s).

Definition lstrip : string → string := lstrip_by Char.is_space.
Definition rstrip : string → string := rstrip_by Char.is_space.
Definition strip : string → string := strip_by Char.is_space.

(** [s.startswith(p)]. *)
Fixpoint startswith (p s : string) : bool :=
  match p, s with
  | EmptyString, _ => true
  | String a p', String b s' => Char.eqb a b && startswith p' s'
  | String _ _, EmptyString => false
  end.

(** [s.split(sep)] for a one-character separator: the first field and the
    fields after it. *)
Fixpoint split_go (sep : ascii) (s : string) : string * list string :=
  match s with
  | EmptyString => (EmptyString, [])
  | String c r =>
      let '(w, ws) := split_go sep r in
      if Char.eqb c sep then (EmptyString, w :: ws) else (String c w, ws)
  end.
Definition split (sep : ascii) (s : string) : list string :=
  let '(w, ws) := split_go sep s in w :: ws.

(** [''.join(l)]. *)
Fixpoint concat (l : list string) : string :=
  match l with
  | [] => EmptyString
  | s :: r => s +:+ concat r
  end.

(** [sep.join(l)]. *)
Fixpoint join (sep : string) (l : list string) : string :=
  match l with
  | [] => EmptyString
  | [s] => s
  | s :: r => s +:+ sep +:+ join sep r
  end.

(** [s.rjust(width, fill)] and [s.ljust(width, fill)] once [fill] is known
    to be one character. *)
Definition padding (s : string) (width : Z) (c : ascii) : string :=
  mul (String c EmptyString) (width - Z.of_nat (len s))%Z.

(** [str(n)] for a length. *)
Definition of_nat (n : nat) : string := pretty n.

End Str.

(** ** The regular expression [[^a-zA-Z0-9]+] *)

Module Re.

(** [re.sub(r'[^a-zA-Z0-9]+', rep, s)]: every maximal run of characters
    outside the class is replaced by [rep]; [in_run] tells that the
    character before is part of a run already replaced. *)
Fixpoint sub_go (rep : string) (in_run : bool) (s : string) : string :=
  match s with
  | EmptyString => EmptyString
  | String c r =>
      if Char.is_alnum c then String c (sub_go rep false r)
      else if in_run then sub_go rep true r
      else rep +:+ sub_go rep true r
  end.
Definition sub (rep s : string) : string := sub_go rep false s.

(** [re.split(r'[^a-zA-Z0-9]+', s)]: the first word and the words after
    it; a run at either end of [s] leaves an empty word there. *)
Fixpoint split_go (in_run : bool) (s : string) : string * list string :=
  match s with
  | EmptyString => (EmptyString, [])
  | String c r =>
      if Char.is_alnum c then
        let '(w, ws) := split_go false r in (String c w, ws)
      else if in_run then split_go true r
      else let '(w, ws) := split_go true r in (EmptyString, w :: ws)
  end.
Definition split (s : string) : list string :=
  let '(w, ws) := split_go false s in w :: ws.

End Re.

(** ** Exceptions and outcomes *)

(** [ValueError tok] is what [int(tok)] raises: its message is
    [invalid literal for int() with base 10: tok].  [TypeError] is what
    [str.rjust] and [str.ljust] raise for a fill string that is not one
    character long.  [InvalidFilterParameter] is the error the specification
    names; no statement of [tq.py] raises it. *)
Inductive exn : Type :=
  | ValueError (token : string)
  | TypeError
  | InvalidFilterParameter (name : string) (position : nat) (token : string).

Inductive outcome (A : Type) : Type :=
  | Done (a : A)
  | Raise (e : exn)
  | OutOfFuel.
Arguments Done {A} a.
Arguments Raise {A} e.
Arguments OutOfFuel {A}.

Global Instance outcome_ret : MRet outcome := @Done.

Global Instance outcome_bind : MBind outcome := λ A B k m,
  match m with
  | Done a => k a
  | Raise e => Raise e
  | OutOfFuel => OutOfFuel
  end.

(** [[g(line) for line in lines]] for a [g] that may raise: the first line
    on which [g] raises ends the comprehension. *)
Fixpoint for_each {A B : Type} (g : A → outcome B) (l : list A)
  : outcome (list B) :=
  match l with
  | [] => Done []
  | a :: r => b ← g a; bs ← for_each g r; Done (b :: bs)
  end.

(** ** [int(token)] *)

Module Int.

(** Decimal digits, single underscores allowed between two digits. *)
Fixpoint digits (acc : Z) (after_digit : bool) (s : string) : option Z :=
  match s with
  | EmptyString => if after_digit then Some acc else None
  | String c r =>
      match Ascii.is_nat c with
      | Some d => digits (10 * acc + Z.of_nat d)%Z true r
      | None =>
          if Char.eqb c "_"%char && after_digit then digits acc false r
          else None
      end
  end.

Definition signed (s : string) : option Z :=
  match s with
  | String "-"%char r => Z.opp <$> digits 0%Z false r
  | String "+"%char r => digits 0%Z false r
  | _ => digits 0%Z false s
  end.

(** [int] skips the white space of the C locale (TAB, LF, VT, FF, CR,
    space) at both ends. *)
Definition parse (s : string) : option Z :=
  signed (Str.strip_by Ascii.is_space s).

Definition int (token : string) : outcome Z :=
  match parse token with
  | Some z => Done z
  | None => Raise (ValueError token)
  end.

End Int.

(** ** The filters of [Tq] *)

Module Tq.

Definition join (lines : list string) : list string := [Str.concat lines].

Definition snake_case (line : string) : string :=
  Str.lower (Str.strip_by (λ c, Char.eqb c "_") (Re.sub "_" line)).

Definition kebab_case (line : string) : string :=
  Str.lower (Str.strip_by (λ c, Char.eqb c "-") (Re.sub "-" line)).

Definition camel_case (line : string) : string :=
  match Re.split line with
  | w :: ws => Str.lower w +:+ Str.concat (Str.capitalize <$> ws)
  | [] => ""
  end.

Definition pascal_case (line : string) : string :=
  Str.concat (Str.capitalize <$> Re.split line).

Definition title_case (line : string) : string := Str.title line.

Definition sentence_case (line : string) : string :=
  let line := Str.strip line in
  if decide (line = "") then ""
  else Str.upper (Str.slice_to 1 line) +:+ Str.lower (Str.slice_from 1 line).

Definition lowercase (line : string) : string := Str.lower line.
Definition uppercase (line : string) : string := Str.upper line.
Definition capitalize (line : string) : string := Str.capitalize line.
Definition trim (line : string) : string := Str.strip line.
Definition reverse (line : string) : string := Str.reversed line.

(** [sorted(lines)]: ascending in the order of [str], which compares
    character codes. *)
Definition sort (lines : list string) : list string :=
  merge_sort String.le lines.

(** The body of the loop of [unique], on the pair of [seen] and
    [result]. *)
Definition unique_step (st : gset string * list string) (l : string)
  : gset string * list string :=
  if decide (l ∈ st.1) then st else ({[ l ]} ∪ st.1, st.2 ++ [l]).

Definition unique (lines : list string) : list string :=
  (foldl unique_step (∅, []) lines).2.

Definition count (line : string) : string := Str.of_nat (Str.len line).
Definition length (line : string) : string := Str.of_nat (Str.len line).

Definition first (lines : list string) : list string :=
  match lines with
  | l :: _ => [l]
  | [] => []
  end.

Definition last (lines : list string) : list string :=
  match list.last lines with
  | Some l => [l]
  | None => []
  end.

Definition indent (line : string) (n : Z) : string :=
  Str.mul " " n +:+ line.

Definition dedent (line : string) : string := Str.lstrip line.

(** [line.rjust(width, char)]; the fill string has to be one character. *)
Definition pad_left (line : string) (width : Z) (char : string)
  : outcome string :=
  match char with
  | String c EmptyString => Done (Str.padding line width c +:+ line)
  | _ => Raise TypeError
  end.

(** [line.ljust(width, char)]. *)
Definition pad_right (line : string) (width : Z) (char : string)
  : outcome string :=
  match char with
  | String c EmptyString => Done (line +:+ Str.padding line width c)
  | _ => Raise TypeError
  end.

Definition remove_empty (lines : list string) : list string :=
  filter (λ l, Str.strip l ≠ "") lines.

Definition truncate (line : string) (length : Z) : string :=
  Str.slice_to length line.

(** The [while] loop of [col_width] on one line: [fuel] bounds the number
    of times its body may run. *)
Fixpoint col_width_while (fuel : nat) (width : Z)
    (line : string) (result : list string) {struct fuel}
  : outcome (string * list string) :=
  if (Z.of_nat (Str.len line) >? width)%Z then
    match fuel with
    | O => OutOfFuel
    | S fuel' =>
        col_width_while fuel' width
          (Str.slice_from width line) (result ++ [Str.slice_to width line])
    end
  else Done (line, result).

(** The [for] loop of [col_width], from the [result] built so far. *)
Fixpoint col_width_for (fuel : nat) (width : Z)
    (result : list string) (lines : list string) : outcome (list string) :=
  match lines with
  | [] => Done result
  | line :: rest =>
      st ← col_width_while fuel width line result;
      col_width_for fuel width
        (if decide (st.1 = "") then st.2 else st.2 ++ [st.1]) rest
  end.

Definition col_width (fuel : nat) (lines : list string) (width : Z)
  : outcome (list string) :=
  col_width_for fuel width [] lines.

(** *** The registry *)

(** A value of the dictionary of [get_filters]: a method that takes the
    whole Document, or a [lambda] that takes one line. *)
Inductive entry : Type :=
  | Whole (func : list string → list string)
  | PerLine (func : string → outcome string).

Definition get_filters : gmap string entry :=
  list_to_map [
    ("join", Whole join);
    ("snake-case", PerLine (λ l, Done (snake_case l)));
    ("kebab-case", PerLine (λ l, Done (kebab_case l)));
    ("camel-case", PerLine (λ l, Done (camel_case l)));
    ("pascal-case", PerLine (λ l, Done (pascal_case l)));
    ("title-case", PerLine (λ l, Done (title_case l)));
    ("sentence-case", PerLine (λ l, Done (sentence_case l)));
    ("lowercase", PerLine (λ l, Done (lowercase l)));
    ("uppercase", PerLine (λ l, Done (uppercase l)));
    ("capitalize", PerLine (λ l, Done (capitalize l)));
    ("trim", PerLine (λ l, Done (trim l)));
    ("reverse", PerLine (λ l, Done (reverse l)));
    ("sort", Whole sort);
    ("unique", Whole unique);
    ("count", PerLine (λ l, Done (count l)));
    ("length", PerLine (λ l, Done (length l)));
    ("first", Whole first);
    ("last", Whole last);
    ("indent", PerLine (λ l, Done (indent l 4)));
    ("dedent", PerLine (λ l, Done (dedent l)));
    ("pad-left", PerLine (λ l, pad_left l 10 " "));
    ("pad-right", PerLine (λ l, pad_right l 10 " "));
    ("truncate", PerLine (λ l, Done (truncate l 10)))
  ].

(** *** The parser *)

(** [filter_str] is [None] when no expression was given. *)
Definition parse_filter_string (filter_str : option string) : list string :=
  match filter_str with
  | None | Some EmptyString => []
  | Some s => Str.strip <$> Str.split "|" s
  end.

(** *** The executor *)

(** [int(parts[1]) if len(parts) > 1 else default]. *)
Definition int_param (parts : list string) (default : Z) : outcome Z :=
  match parts !! 1%nat with
  | Some token => Int.int token
  | None => Done default
  end.

(** [parts[2] if len(parts) > 2 else ' ']. *)
Definition char_param (parts : list string) : string :=
  match parts !! 2%nat with
  | Some token => token
  | None => " "
  end.

(** The last branch of the loop body: the name is looked up in the
    registry.  A [Whole] entry is never found here, its name is taken by one
    of the equality tests before (lemma [whole_entry_shadowed]). *)
Definition apply_registered (lines : list string) (f : string)
  : outcome (list string) :=
  match get_filters !! f with
  | Some (PerLine func) => for_each func lines
  | Some (Whole func) => Done (func lines)
  | None => Done lines
  end.

(** The body of the loop of [apply_filters]. *)
Definition apply_filter (fuel : nat) (lines : list string) (f : string)
  : outcome (list string) :=
  if decide (f = "join") then Done (join lines)
  else if decide (f = "sort") then Done (sort lines)
  else if decide (f = "unique") then Done (unique lines)
  else if decide (f = "first") then Done (first lines)
  else if decide (f = "last") then Done (last lines)
  else if decide (f = "remove-empty") then Done (remove_empty lines)
  else if Str.startswith "col-width" f then
    let parts := Str.split ":" f in
    w ← int_param parts 10;
    col_width fuel lines w
  else if Str.startswith "indent" f then
    let parts := Str.split ":" f in
    n ← int_param parts 4;
    Done ((λ line, indent line n) <$> lines)
  else if Str.startswith "pad-left" f then
    let parts := Str.split ":" f in
    w ← int_param parts 10;
    let c := char_param parts in
    for_each (λ line, pad_left line w c) lines
  else if Str.startswith "pad-right" f then
    let parts := Str.split ":" f in
    w ← int_param parts 10;
    let c := char_param parts in
    for_each (λ line, pad_right line w c) lines
  else if Str.startswith "truncate" f then
    let parts := Str.split ":" f in
    length ← int_param parts 10;
    Done ((λ line, truncate line length) <$> lines)
  else apply_registered lines f.

Fixpoint apply_filters (fuel : nat) (lines : list string)
    (filter_chain : list string) : outcome (list string) :=
  match filter_chain with
  | [] => Done lines
  | f :: rest =>
      lines' ← apply_filter fuel lines f;
      apply_filters fuel lines' rest
  end.

End Tq.

(** * Definitions the properties are stated with *)

(** The de-duplication the specification describes, written from its words:
    a line is removed when it is equal to an earlier line, the other lines
    stay in their order.  [earlier] holds the lines already passed. *)
Fixpoint first_occurrences_from (earlier lines : list string) : list string :=
  match lines with
  | [] => []
  | l :: rest =>
      if decide (l ∈ earlier) then first_occurrences_from (earlier ++ [l]) rest
      else l :: first_occurrences_from (earlier ++ [l]) rest
  end.

Definition first_occurrences (lines : list string) : list string :=
  first_occurrences_from [] lines.

(** [c in s]. *)
Fixpoint has_char (c : ascii) (s : string) : bool :=
  match s with
  | EmptyString => false
  | String c' r => Char.eqb c' c || has_char c r
  end.

(** The name of an invocation: the first of the tokens the segment is made
    of, [f.split(':')[0]]. *)
Definition invocation_name (f : string) : string :=
  (Str.split_go ":" f).1.

(** The names of the filters: the keys of [get_filters], and [remove-empty]
    and [col-width], which only [apply_filters] knows. *)
Definition registered_names : list string :=
  [ "join"; "snake-case"; "kebab-case"; "camel-case"; "pascal-case";
    "title-case"; "sentence-case"; "lowercase"; "uppercase"; "capitalize";
    "trim"; "reverse"; "sort"; "unique"; "count"; "length"; "first"; "last";
    "indent"; "dedent"; "pad-left"; "pad-right"; "truncate";
    "remove-empty"; "col-width" ].

(** The filters the executor tests with [startswith]. *)
Definition prefix_tested_names : list string :=
  [ "col-width"; "indent"; "pad-left"; "pad-right"; "truncate" ].

(** The filters that take one line. *)
Definition elementwise_names : list string :=
  [ "snake-case"; "kebab-case"; "camel-case"; "pascal-case"; "title-case";
    "sentence-case"; "lowercase"; "uppercase"; "capitalize"; "trim";
    "reverse"; "count"; "length"; "indent"; "dedent"; "pad-left";
    "pad-right"; "truncate" ].

(** What may follow the name in a segment: nothing, or a colon and the
    parameters. *)
Definition parameter_suffix (suffix : string) : Prop :=
  suffix = "" ∨ ∃ r, suffix = String ":" r.

(** Every character of [s] passes the test [p]. *)
Fixpoint all_chars (p : ascii → bool) (s : string) : bool :=
  match s with
  | EmptyString => true
  | String c r => p c && all_chars p r
  end.

(** [s] is empty or starts with a character that [p] refuses. *)
Definition head_not (p : ascii → bool) (s : string) : bool :=
  match s with
  | EmptyString => true
  | String c _ => negb (p c)
  end.

(** [s] is empty or ends with a character that [p] refuses. *)
Fixpoint last_not (p : ascii → bool) (s : string) : bool :=
  match s with
  | EmptyString => true
  | String c EmptyString => negb (p c)
  | String _ r => last_not p r
  end.

(** The filters that take no parameter. *)
Definition parameterless_names : list string :=
  [ "join"; "snake-case"; "kebab-case"; "camel-case"; "pascal-case";
    "title-case"; "sentence-case"; "lowercase"; "uppercase"; "capitalize";
    "trim"; "reverse"; "sort"; "unique"; "count"; "length"; "first"; "last";
    "dedent"; "remove-empty" ].

(** [s] is made of letters and digits and of single separators [u]; after
    a separator ([after_sep]) it does not go on with another one. *)
Fixpoint separated (u : ascii) (after_sep : bool) (s : string) : bool :=
  match s with
  | EmptyString => true
  | String c r =>
      if Char.is_alnum c then separated u false r
      else Char.eqb c u && negb after_sep && separated u true r
  end.

(** What [snake_case] and [kebab_case] do, with the separator [u] for the
    underscore or the hyphen: [re.sub], [strip] and [lower]. *)
Definition slug (u : ascii) (line : string) : string :=
  Str.lower (Str.strip_by (λ c, Char.eqb c u) (Re.sub (String u "") line)).

(** The number of times [c] occurs in [s]. *)
Fixpoint count_char (c : ascii) (s : string) : nat :=
  match s with
  | EmptyString => 0
  | String c' r => (if Char.eqb c' c then 1 else 0) + count_char c r
  end.

(** * Properties *)

(** ** Strings *)

Section str_lemmas.

Implicit Types (s t : string) (c : ascii) (n : nat).

Lemma str_app_nil_l s : "" +:+ s = s.
Proof. reflexivity. Qed.

Lemma str_app_cons c s t : String c s +:+ t = String c (s +:+ t).
Proof. reflexivity. Qed.

Lemma str_app_nil_r s : s +:+ "" = s.
Proof. induction s as [|c s IH]; [done|]. by rewrite str_app_cons, IH. Qed.

Lemma str_app_assoc s t u : (s +:+ t) +:+ u = s +:+ t +:+ u.
Proof. induction s as [|c s IH]; [done|]. by rewrite !str_app_cons, IH. Qed.

Lemma len_zero s : Str.len s = 0 → s = "".
Proof. by destruct s. Qed.

Lemma take_drop n s : Str.take n s +:+ Str.drop n s = s.
Proof.
  revert s. induction n as [|n IH]; intros [|c s]; simpl; try done.
  by rewrite str_app_cons, IH.
Qed.

Lemma len_take n s : Str.len (Str.take n s) = n `min` Str.len s.
Proof.
  revert s. induction n as [|n IH]; intros [|c s]; simpl; try done.
  by rewrite IH.
Qed.

Lemma len_drop n s : Str.len (Str.drop n s) = Str.len s - n.
Proof.
  revert s. induction n as [|n IH]; intros [|c s]; simpl; try done.
Qed.

Lemma slice_to_from k s : Str.slice_to k s +:+ Str.slice_from k s = s.
Proof. apply take_drop. Qed.

(** *** [split] *)

Lemma split_go_no_sep sep s :
  has_char sep s = false → Str.split_go sep s = (s, []).
Proof.
  induction s as [|c s IH]; simpl; [done|].
  intros [Hc Hs]%orb_false_elim. by rewrite (IH Hs), Hc.
Qed.

Lemma split_go_field sep s t :
  has_char sep s = false →
  Str.split_go sep (s +:+ String sep t) = (s, Str.split sep t).
Proof.
  unfold Str.split. induction s as [|c s IH].
  - intros _. rewrite str_app_nil_l. simpl.
    destruct (Str.split_go sep t) as [w ws].
    unfold Char.eqb. by rewrite bool_decide_eq_true_2.
  - simpl. intros [Hc Hs]%orb_false_elim.
    by rewrite (IH Hs), Hc.
Qed.

Lemma split_no_sep sep s : has_char sep s = false → Str.split sep s = [s].
Proof. intros H. unfold Str.split. by rewrite split_go_no_sep. Qed.

Lemma split_field sep s t :
  has_char sep s = false →
  Str.split sep (s +:+ String sep t) = s :: Str.split sep t.
Proof. intros H. unfold Str.split at 1. by rewrite split_go_field. Qed.

(** The first field of a string that starts with a token and goes on with
    nothing or with a separator. *)
Lemma split_token sep token rest :
  has_char sep token = false →
  rest = "" ∨ (∃ r, rest = String sep r) →
  ∃ ws, Str.split sep (token +:+ rest) = token :: ws.
Proof.
  intros H [->|[r ->]].
  - rewrite str_app_nil_r, split_no_sep by done. eauto.
  - rewrite split_field by done. eauto.
Qed.

(** *** [startswith] *)

Lemma startswith_inv p s : Str.startswith p s = true → ∃ t, s = p +:+ t.
Proof.
  revert s. induction p as [|c p IH]; intros s; [by exists s|].
  destruct s as [|c' s]; simpl; [done|].
  intros [Hc [t ->]%IH]%andb_prop.
  apply bool_decide_eq_true_1 in Hc as <-. by exists t.
Qed.

End str_lemmas.

(** ** The outcome monad *)

Lemma bind_done {A B} (a : A) (k : A → outcome B) : (Done a ≫= k) = k a.
Proof. reflexivity. Qed.

Lemma bind_is_done {A B} (m : outcome A) (k : A → outcome B) (b : B) :
  (m ≫= k) = Done b → ∃ a, m = Done a ∧ k a = Done b.
Proof. destruct m as [a|e|]; [eauto|done..]. Qed.

(** A comprehension that ends has mapped every element. *)
Lemma for_each_done {A B} (g : A → outcome B) (d : B) (l : list A) (l' : list B) :
  for_each g l = Done l' →
  l' = (λ a, match g a with Done b => b | _ => d end) <$> l.
Proof.
  revert l'. induction l as [|a l IH]; intros l' H; simpl in H.
  - by injection H as <-.
  - apply bind_is_done in H as (b & Hb & H).
    apply bind_is_done in H as (bs & Hbs & H).
    injection H as <-. rewrite fmap_cons, Hb. by rewrite <- (IH bs).
Qed.

(** ** The empty chain *)

(** C7: an absent or empty filter expression is parsed to the empty chain,
    and the empty chain returns the Document it is given. *)
Theorem empty_expression_is_identity :
  Tq.parse_filter_string None = [] ∧
  Tq.parse_filter_string (Some "") = [] ∧
  ∀ fuel D,
    Tq.apply_filters fuel D [] = Done D ∧
    Tq.apply_filters fuel D (Tq.parse_filter_string None) = Done D ∧
    Tq.apply_filters fuel D (Tq.parse_filter_string (Some "")) = Done D.
Proof. repeat split. Qed.

(** ** An end-to-end run *)

(** C8: the expression [snake-case | reverse] turns the Document
    [Hello World!] into [dlrow_olleh]; [snake-case] gives [hello_world] (runs
    of characters outside [a-zA-Z0-9] replaced by one underscore, underscores
    stripped at both ends, lower case) and [reverse] reverses it. *)
Theorem snake_case_then_reverse :
  Tq.parse_filter_string (Some "snake-case | reverse")
    = ["snake-case"; "reverse"] ∧
  Re.sub "_" "Hello World!" = "Hello_World_" ∧
  Tq.snake_case "Hello World!" = "hello_world" ∧
  Tq.reverse "hello_world" = "dlrow_olleh" ∧
  ∀ fuel,
    Tq.apply_filters fuel ["Hello World!"]
      (Tq.parse_filter_string (Some "snake-case | reverse"))
    = Done ["dlrow_olleh"].
Proof. repeat split; intros; vm_compute; reflexivity. Qed.

(** ** The empty Document *)

(** C9: on the empty Document [first] and [last] return the empty Document
    and [join] returns the Document of one empty line, called directly or
    through the executor. *)
Theorem collection_filters_on_empty_document :
  Tq.first [] = [] ∧ Tq.last [] = [] ∧ Tq.join [] = [""] ∧
  ∀ fuel,
    Tq.apply_filters fuel [] ["first"] = Done [] ∧
    Tq.apply_filters fuel [] ["last"] = Done [] ∧
    Tq.apply_filters fuel [] ["join"] = Done [""].
Proof. repeat split. Qed.

(** ** [unique] *)

Section unique.

Implicit Types (l : string) (lines earlier result : list string).

(** The loop of [unique], started on the lines [earlier] has been through:
    [seen] holds them, and the lines appended to [result] are the first
    occurrences among the lines to come. *)
Lemma unique_loop earlier result lines :
  foldl Tq.unique_step (list_to_set earlier, result) lines
  = (list_to_set (earlier ++ lines),
     result ++ first_occurrences_from earlier lines).
Proof.
  revert earlier result. induction lines as [|l lines IH]; intros earlier result.
  - simpl. by rewrite !app_nil_r.
  - simpl. unfold Tq.unique_step at 2. simpl.
    assert (list_to_set (earlier ++ l :: lines)
            = (list_to_set ((earlier ++ [l]) ++ lines) : gset string)) as ->.
    { by rewrite <- app_assoc. }
    destruct (decide (l ∈ list_to_set earlier)) as [Hin|Hin];
      rewrite elem_of_list_to_set in Hin.
    + rewrite decide_True by done.
      assert (list_to_set earlier
              = (list_to_set (earlier ++ [l]) : gset string)) as ->.
      { apply set_eq. intros x. rewrite !elem_of_list_to_set, elem_of_app.
        rewrite list_elem_of_singleton. intuition (subst; auto). }
      apply IH.
    + rewrite decide_False by done.
      assert ({[l]} ∪ list_to_set earlier
              = (list_to_set (earlier ++ [l]) : gset string)) as ->.
      { apply set_eq. intros x.
        rewrite elem_of_union, elem_of_singleton, !elem_of_list_to_set.
        rewrite elem_of_app, list_elem_of_singleton. tauto. }
      rewrite IH. f_equal. by rewrite <- app_assoc.
Qed.

Lemma unique_first_occurrences lines :
  Tq.unique lines = first_occurrences lines.
Proof.
  unfold Tq.unique, first_occurrences.
  change (∅ : gset string) with (list_to_set [] : gset string).
  by rewrite unique_loop.
Qed.

Lemma first_occurrences_from_elem earlier lines l :
  l ∈ first_occurrences_from earlier lines ↔ l ∈ lines ∧ l ∉ earlier.
Proof.
  revert earlier. induction lines as [|l' lines IH]; intros earlier; simpl.
  - split; [by intros ?%elem_of_nil|by intros [?%elem_of_nil _]].
  - destruct (decide (l = l')) as [->|Hne];
      destruct (decide (l' ∈ earlier)) as [Hin|Hin];
      rewrite ?elem_of_cons, IH, elem_of_app, list_elem_of_singleton;
      tauto.
Qed.

Lemma first_occurrences_from_NoDup earlier lines :
  NoDup (first_occurrences_from earlier lines).
Proof.
  revert earlier. induction lines as [|l lines IH]; intros earlier; simpl.
  - constructor.
  - destruct (decide (l ∈ earlier)); [apply IH|].
    constructor; [|apply IH].
    rewrite first_occurrences_from_elem, elem_of_app, list_elem_of_singleton.
    intros [_ H]. apply H. by right.
Qed.

Lemma first_occurrences_from_sublist earlier lines :
  sublist (first_occurrences_from earlier lines) lines.
Proof.
  revert earlier. induction lines as [|l lines IH]; intros earlier; simpl.
  - constructor.
  - destruct (decide (l ∈ earlier)); by constructor.
Qed.

End unique.

(** C6: [unique] removes exactly the lines equal to an earlier line and keeps
    the others in their order: a line added at the end of a Document is kept
    when it is new and dropped when it occurs before; the result is the
    Document of first occurrences, has no duplicate, keeps the order of the
    Document and misses none of its lines; [b; a; b; c] gives [b; a; c]. *)
Theorem unique_keeps_first_occurrences :
  (∀ D : list string,
     Tq.unique D = first_occurrences D ∧
     NoDup (Tq.unique D) ∧
     sublist (Tq.unique D) D ∧
     (∀ l, l ∈ Tq.unique D ↔ l ∈ D) ∧
     (∀ l, Tq.unique (D ++ [l])
           = if decide (l ∈ D) then Tq.unique D else Tq.unique D ++ [l])) ∧
  Tq.unique ["b"; "a"; "b"; "c"] = ["b"; "a"; "c"].
Proof.
  split; [|by vm_compute].
  intros D. rewrite !unique_first_occurrences. unfold first_occurrences.
  split_and!.
  - done.
  - apply first_occurrences_from_NoDup.
  - apply first_occurrences_from_sublist.
  - intros l. rewrite first_occurrences_from_elem.
    split; [by intros [? _]|]. split; [done|]. by intros ?%elem_of_nil.
  - intros l. rewrite <- !unique_first_occurrences.
    unfold Tq.unique. rewrite foldl_snoc.
    change (∅ : gset string) with (list_to_set [] : gset string).
    rewrite unique_loop. unfold Tq.unique_step. simpl.
    destruct (decide (l ∈ D)) as [Hin|Hin].
    + rewrite decide_True by (by apply elem_of_list_to_set). done.
    + rewrite decide_False by (by rewrite elem_of_list_to_set). done.
Qed.

(** ** [col_width] *)

Section col_width.

Implicit Types (line s : string) (result out : list string) (w : Z).

Lemma concat_snoc out s : Str.concat (out ++ [s]) = Str.concat out +:+ s.
Proof.
  induction out as [|c out IH]; simpl.
  - apply str_app_nil_r.
  - by rewrite IH, str_app_assoc.
Qed.

Lemma while_unfold fuel w line result :
  Tq.col_width_while fuel w line result
  = if (Z.of_nat (Str.len line) >? w)%Z then
      match fuel with
      | O => OutOfFuel
      | S fuel' =>
          Tq.col_width_while fuel' w
            (Str.slice_from w line) (result ++ [Str.slice_to w line])
      end
    else Done (line, result).
Proof. by destruct fuel. Qed.

(** With a width of at least one, what is left of the line gets shorter each
    time the body of the loop runs. *)
Lemma remainder_shrinks w line :
  (1 ≤ w)%Z → (Z.of_nat (Str.len line) > w)%Z →
  Str.len (Str.slice_from w line) < Str.len line.
Proof.
  intros Hw Hlen. unfold Str.slice_from, Str.bound.
  rewrite len_drop. destruct (Z.leb_spec 0 w); lia.
Qed.

(** The slice taken off the line has exactly [w] characters. *)
Lemma chunk_len w line :
  (0 ≤ w)%Z → (Z.of_nat (Str.len line) > w)%Z →
  Z.of_nat (Str.len (Str.slice_to w line)) = w.
Proof.
  intros Hw Hlen. unfold Str.slice_to, Str.bound.
  rewrite len_take. destruct (Z.leb_spec 0 w); lia.
Qed.

(** With a width of zero or less, the condition of the loop holds again
    after the body has run: the loop uses all the fuel it is given. *)
Lemma while_diverges fuel w line result :
  (w ≤ 0)%Z → (Z.of_nat (Str.len line) > w)%Z →
  Tq.col_width_while fuel w line result = OutOfFuel.
Proof.
  intros Hw. revert line result.
  induction fuel as [|fuel IH]; intros line result Hlen;
    rewrite while_unfold;
    (destruct (Z.gtb_spec (Z.of_nat (Str.len line)) w); [|lia]).
  - done.
  - apply IH. unfold Str.slice_from, Str.bound.
    destruct (Z.leb_spec 0 w).
    + replace w with 0%Z in * by lia. simpl. lia.
    + lia.
Qed.

(** What the loop has done when it ends. *)
Lemma while_done fuel w line result last result' :
  Tq.col_width_while fuel w line result = Done (last, result') →
  ∃ chunks,
    result' = result ++ chunks ∧
    Str.concat chunks +:+ last = line ∧
    Forall (λ c, Z.of_nat (Str.len c) = w) chunks ∧
    (Z.of_nat (Str.len last) ≤ w)%Z.
Proof.
  destruct (Z_le_gt_dec w 0) as [Hw|Hw].
  { intros H.
    destruct (Z_le_gt_dec (Z.of_nat (Str.len line)) w) as [Hle|Hgt].
    - rewrite while_unfold in H.
      destruct (Z.gtb_spec (Z.of_nat (Str.len line)) w); [lia|].
      injection H as <- <-. exists []. rewrite app_nil_r. by repeat split.
    - rewrite while_diverges in H by lia. discriminate H. }
  revert line result. induction fuel as [|fuel IH]; intros line result;
    rewrite while_unfold;
    (destruct (Z.gtb_spec (Z.of_nat (Str.len line)) w) as [Hgt|Hle]);
    intros H; try discriminate H.
  - injection H as <- <-. exists []. rewrite app_nil_r. by repeat split.
  - apply IH in H as (chunks & -> & Hcat & Hall & Hlast).
    exists (Str.slice_to w line :: chunks). split_and!.
    + by rewrite <- app_assoc.
    + simpl. rewrite str_app_assoc, Hcat. apply slice_to_from.
    + constructor; [|done]. apply chunk_len; lia.
    + done.
  - injection H as <- <-. exists []. rewrite app_nil_r. by repeat split.
Qed.

(** With a width of at least one the loop ends when it is given as many
    iterations as the line has characters. *)
Lemma while_terminates fuel w line result :
  (1 ≤ w)%Z → Str.len line ≤ fuel →
  ∃ st, Tq.col_width_while fuel w line result = Done st.
Proof.
  intros Hw. revert line result.
  induction fuel as [|fuel IH]; intros line result Hfuel;
    rewrite while_unfold;
    (destruct (Z.gtb_spec (Z.of_nat (Str.len line)) w) as [Hgt|Hle]);
    eauto; [lia|].
  apply IH. pose proof (remainder_shrinks w line Hw ltac:(lia)). lia.
Qed.

Lemma for_terminates fuel w result lines :
  (1 ≤ w)%Z → Forall (λ l, Str.len l ≤ fuel) lines →
  ∃ out, Tq.col_width_for fuel w result lines = Done out.
Proof.
  intros Hw Hall. revert result.
  induction Hall as [|line lines Hline _ IH]; intros result; simpl; [eauto|].
  destruct (while_terminates fuel w line result Hw Hline) as [st ->].
  apply IH.
Qed.

Lemma for_diverges fuel w result lines :
  (w ≤ 0)%Z → (∃ l, l ∈ lines ∧ l ≠ "") →
  Tq.col_width_for fuel w result lines = OutOfFuel.
Proof.
  intros Hw. revert result.
  induction lines as [|line lines IH]; intros result (l & Hin & Hl).
  { by apply elem_of_nil in Hin. }
  simpl. destruct (Z_le_gt_dec (Z.of_nat (Str.len line)) w) as [Hle|Hgt].
  - assert (line = "") as -> by (apply len_zero; lia).
    rewrite while_unfold.
    destruct (Z.gtb_spec (Z.of_nat (Str.len "")) w) as [Hgt|_];
      [simpl in *; lia|].
    apply IH. exists l. split; [|done].
    apply elem_of_cons in Hin as [->|Hin]; done.
  - by rewrite while_diverges.
Qed.

End col_width.

(** C4: when [col_width] returns for the one-line Document [s] and the width
    [n], the lines it returns concatenate to [s] and each of them but the
    last has exactly [n] characters; for a width of at least one it does
    return, given as many iterations as [s] has characters. *)
Theorem col_width_reconstructs_the_line (s : string) (n : Z) :
  (∀ fuel out,
     Tq.col_width fuel [s] n = Done out →
     Str.concat out = s ∧
     ∀ i chunk, out !! i = Some chunk → S i < length out →
                Z.of_nat (Str.len chunk) = n) ∧
  ((1 ≤ n)%Z → ∃ out, Tq.col_width (Str.len s) [s] n = Done out).
Proof.
  split.
  - intros fuel out H. unfold Tq.col_width in H. simpl in H.
    apply bind_is_done in H as ([last result] & Hwhile & H).
    apply while_done in Hwhile as (chunks & -> & Hcat & Hall & _).
    simpl in H. injection H as <-.
    destruct (decide (last = "")) as [->|Hlast]; simpl.
    + rewrite str_app_nil_r in Hcat. split; [done|].
      intros i chunk Hi _. by apply (Forall_lookup_1 _ _ _ _ Hall Hi).
    + rewrite concat_snoc. split; [done|].
      intros i chunk Hi Hlt. rewrite length_app in Hlt. simpl in Hlt.
      rewrite lookup_app_l in Hi by lia.
      by apply (Forall_lookup_1 _ _ _ _ Hall Hi).
  - intros Hn. apply for_terminates; [done|]. by repeat constructor.
Qed.

(** The theorem at the line [abcdefg] and the width 3. *)
Lemma col_width_reconstructs_the_line_witness :
  ∃ out, Tq.col_width 7 ["abcdefg"] 3 = Done out ∧ Str.concat out = "abcdefg".
Proof.
  destruct (col_width_reconstructs_the_line "abcdefg" 3) as [Hdone Hex].
  destruct (Hex ltac:(lia)) as [out Hout].
  exists out. split; [exact Hout|]. exact (proj1 (Hdone 7 out Hout)).
Defined.

(** C10: [col_width] returns on every Document exactly when the width is at
    least one.  Then the remainder of the line shrinks each time the body of
    the loop runs, and the longest line bounds the iterations needed; with a
    width of zero or less and a Document that has a non-empty line, no amount
    of fuel is enough. *)
Theorem col_width_terminates_iff_width_positive (width : Z) :
  ((∀ lines, ∃ fuel out, Tq.col_width fuel lines width = Done out)
   ↔ (1 ≤ width)%Z) ∧
  ((1 ≤ width)%Z →
   (∀ line, (Z.of_nat (Str.len line) > width)%Z →
            Str.len (Str.slice_from width line) < Str.len line) ∧
   (∀ fuel lines, Forall (λ l, Str.len l ≤ fuel) lines →
                  ∃ out, Tq.col_width fuel lines width = Done out)) ∧
  ((width ≤ 0)%Z →
   ∀ lines, (∃ l, l ∈ lines ∧ l ≠ "") →
   ∀ fuel, Tq.col_width fuel lines width = OutOfFuel).
Proof.
  split_and!.
  - split.
    + intros Hterm. destruct (Z_le_gt_dec 1 width) as [|Hw]; [done|].
      destruct (Hterm ["x"]) as (fuel & out & H).
      unfold Tq.col_width in H. rewrite for_diverges in H; [done|lia|].
      exists "x". split; [apply list_elem_of_here|done].
    + intros Hw lines. exists (max_list (String.length <$> lines)).
      apply for_terminates; [done|].
      apply Forall_forall. intros l Hl.
      apply max_list_elem_of_le, list_elem_of_fmap. eauto.
  - intros Hw. split.
    + intros line. by apply remainder_shrinks.
    + intros fuel lines. by apply for_terminates.
  - intros Hw lines Hl fuel. by apply for_diverges.
Qed.

(** The theorem at the widths 3 and 0. *)
Lemma col_width_terminates_iff_width_positive_witness :
  (∃ out, Tq.col_width 4 ["abcd"; "e"] 3 = Done out) ∧
  (∀ fuel, Tq.col_width fuel [""; "ab"] 0 = OutOfFuel).
Proof.
  split.
  - apply (proj1 (proj2 (col_width_terminates_iff_width_positive 3))); [lia|].
    repeat constructor; simpl; lia.
  - intros fuel.
    apply (proj2 (proj2 (col_width_terminates_iff_width_positive 0)));
      [lia|].
    exists "ab". split; [|done]. apply list_elem_of_further, list_elem_of_here.
Defined.

(** ** The registry and the dispatch of the executor *)

(** Closes a goal that is a decidable proposition on closed terms. *)
Ltac by_evaluation := apply (bool_decide_unpack _); vm_compute; exact I.

(** Passes the test [f == name] of the executor for a segment that is
    spelled differently. *)
Ltac skip_name n :=
  destruct (decide (_ = n)) as [?E|_];
  [exfalso; cbv [String.append] in *; discriminate|].

Ltac skip_names :=
  skip_name "join"; skip_name "sort"; skip_name "unique";
  skip_name "first"; skip_name "last"; skip_name "remove-empty".

(** Evaluates the tests [f.startswith(name)] that the known characters of
    [f] decide. *)
Ltac eval_startswith :=
  repeat match goal with
  | |- context [Str.startswith ?p ?s] =>
      let b := eval vm_compute in (Str.startswith p s) in
      change (Str.startswith p s) with b; cbv iota
  end.

Lemma for_each_total {A B} (g : A → outcome B) (l : list A) :
  (∀ a, ∃ b, g a = Done b) → ∃ l', for_each g l = Done l'.
Proof.
  intros Hg. induction l as [|a l [l' IH]]; simpl; [eauto|].
  destruct (Hg a) as [b ->]. rewrite IH. simpl. eauto.
Qed.

Section registry.

(** What the registry holds: the keys are filter names, none has a colon;
    the entries for whole Documents are the five names the executor tests
    for before it looks into the registry; the entries for lines never
    raise. *)
Lemma registry_entry f e :
  Tq.get_filters !! f = Some e →
  f ∈ registered_names ∧ has_char ":" f = false ∧
  match e with
  | Tq.Whole _ => f ∈ ["join"; "sort"; "unique"; "first"; "last"]
  | Tq.PerLine func => ∀ l, ∃ l', func l = Done l'
  end.
Proof.
  unfold Tq.get_filters. intros H%elem_of_list_to_map_2.
  repeat (apply elem_of_cons in H as [H|H];
          [injection H as -> ->;
           split_and!; [by_evaluation|reflexivity|];
           first [by_evaluation | intros l; eexists; reflexivity]|]).
  by apply elem_of_nil in H.
Qed.

(** The [Whole] entries of the registry are never reached by the last
    branch of the executor. *)
Lemma whole_entry_shadowed fuel D f func :
  Tq.get_filters !! f = Some (Tq.Whole func) →
  Tq.apply_filter fuel D f = Done (func D) ∧
  f ∈ ["join"; "sort"; "unique"; "first"; "last"].
Proof.
  intros H. pose proof (registry_entry _ _ H) as (_ & _ & Hf).
  split; [|done].
  unfold Tq.get_filters in H. apply elem_of_list_to_map_2 in H.
  repeat (apply elem_of_cons in H as [H|H];
          [first [discriminate H | injection H as -> ->; reflexivity]|]).
  by apply elem_of_nil in H.
Qed.

End registry.

Section dispatch.

Implicit Types (f t : string) (D : list string).

Lemma apply_filter_col_width fuel D t :
  Tq.apply_filter fuel D ("col-width" +:+ t)
  = (w ← Tq.int_param (Str.split ":" ("col-width" +:+ t)) 10;
     Tq.col_width fuel D w).
Proof. unfold Tq.apply_filter. skip_names. by eval_startswith. Qed.

Lemma apply_filter_indent fuel D t :
  Tq.apply_filter fuel D ("indent" +:+ t)
  = (n ← Tq.int_param (Str.split ":" ("indent" +:+ t)) 4;
     Done ((λ line, Tq.indent line n) <$> D)).
Proof. unfold Tq.apply_filter. skip_names. by eval_startswith. Qed.

Lemma apply_filter_pad_left fuel D t :
  Tq.apply_filter fuel D ("pad-left" +:+ t)
  = (w ← Tq.int_param (Str.split ":" ("pad-left" +:+ t)) 10;
     for_each
       (λ line,
          Tq.pad_left line w
            (Tq.char_param (Str.split ":" ("pad-left" +:+ t)))) D).
Proof. unfold Tq.apply_filter. skip_names. by eval_startswith. Qed.

Lemma apply_filter_pad_right fuel D t :
  Tq.apply_filter fuel D ("pad-right" +:+ t)
  = (w ← Tq.int_param (Str.split ":" ("pad-right" +:+ t)) 10;
     for_each
       (λ line,
          Tq.pad_right line w
            (Tq.char_param (Str.split ":" ("pad-right" +:+ t)))) D).
Proof. unfold Tq.apply_filter. skip_names. by eval_startswith. Qed.

Lemma apply_filter_truncate fuel D t :
  Tq.apply_filter fuel D ("truncate" +:+ t)
  = (length ← Tq.int_param (Str.split ":" ("truncate" +:+ t)) 10;
     Done ((λ line, Tq.truncate line length) <$> D)).
Proof. unfold Tq.apply_filter. skip_names. by eval_startswith. Qed.

(** A segment that no test of the executor takes goes to the registry. *)
Lemma apply_filter_registered fuel D f :
  f ∉ ["join"; "sort"; "unique"; "first"; "last"; "remove-empty"] →
  (∀ p, p ∈ prefix_tested_names → Str.startswith p f = false) →
  Tq.apply_filter fuel D f = Tq.apply_registered D f.
Proof.
  intros Hname Hprefix. unfold Tq.apply_filter.
  rewrite !decide_False by (intros ->; apply Hname; by_evaluation).
  by rewrite !Hprefix by by_evaluation.
Qed.

(** A segment whose name is not the name of a filter, and which does not
    start with one of the names tested with [startswith], leaves the
    Document as it is. *)
Lemma unknown_name_passes fuel D f :
  invocation_name f ∉ registered_names →
  (∀ p, p ∈ prefix_tested_names → Str.startswith p f = false) →
  Tq.apply_filter fuel D f = Done D.
Proof.
  intros Hname Hprefix. rewrite apply_filter_registered; [|..|done].
  - unfold Tq.apply_registered.
    destruct (Tq.get_filters !! f) as [e|] eqn:E; [|done].
    apply registry_entry in E as (Hin & Hcolon & _).
    exfalso. apply Hname. unfold invocation_name.
    by rewrite split_go_no_sep.
  - intros Hin. apply Hname.
    rewrite !elem_of_cons, elem_of_nil in Hin.
    destruct_or!; subst f; try done; by_evaluation.
Qed.

End dispatch.

(** ** Names that are not registered *)

(** C1: a segment whose name is not the name of a filter is not always left
    alone.  [indentation], [truncated] and [pad-leftx] are not filter names,
    but they start with [indent], [truncate] and [pad-left], the executor
    tests those names with [startswith], and the segments are run as these
    filters: the first indents by four spaces, the second truncates to ten
    characters, the third fails on its parameter. *)
Theorem unregistered_name_with_filter_prefix_is_applied :
  invocation_name "indentation" = "indentation" ∧
  ("indentation" ∉ registered_names) ∧
  ("truncated" ∉ registered_names) ∧
  invocation_name "pad-leftx:abc" = "pad-leftx" ∧
  ("pad-leftx" ∉ registered_names) ∧
  ∀ fuel,
    Tq.apply_filters fuel ["a"] ["indentation"] = Done ["    a"] ∧
    Tq.apply_filters fuel ["abcdefghijkl"] ["truncated"]
      = Done ["abcdefghij"] ∧
    Tq.apply_filters fuel ["a"] ["pad-leftx:abc"] = Raise (ValueError "abc").
Proof.
  split_and!; try by_evaluation; try reflexivity.
  intros fuel. split_and!; by vm_compute.
Qed.

(** ** Parameters that are not integers *)

Ltac raise_on_token Htoken Hparse Hrest :=
  match goal with
  | |- context [Str.split ":" (?name +:+ ":" +:+ ?token +:+ ?rest)] =>
      change (name +:+ ":" +:+ token +:+ rest)
        with (name +:+ String ":" (token +:+ rest));
      rewrite (split_field ":" name) by reflexivity;
      destruct (split_token ":" token rest Htoken Hrest) as [ws ->];
      unfold Tq.int_param, Int.int; simpl; by rewrite Hparse
  end.

(** C2, as the code has it: when the token given for the integer parameter
    of [col-width], [indent], [pad-left], [pad-right] or [truncate] is not
    an integer, the run fails with the [ValueError] of [int], which carries
    the token; it names neither the filter nor the position. *)
Theorem malformed_integer_raises_ValueError
    (name token rest : string) (fuel : nat) (D : list string) :
  name ∈ prefix_tested_names →
  has_char ":" token = false →
  Int.parse token = None →
  parameter_suffix rest →
  Tq.apply_filters fuel D [name +:+ ":" +:+ token +:+ rest]
  = Raise (ValueError token).
Proof.
  intros Hname Htoken Hparse Hrest.
  unfold prefix_tested_names in Hname.
  rewrite !elem_of_cons, elem_of_nil in Hname.
  simpl. destruct_or!; try done; subst name.
  - rewrite apply_filter_col_width. raise_on_token Htoken Hparse Hrest.
  - rewrite apply_filter_indent. raise_on_token Htoken Hparse Hrest.
  - rewrite apply_filter_pad_left. raise_on_token Htoken Hparse Hrest.
  - rewrite apply_filter_pad_right. raise_on_token Htoken Hparse Hrest.
  - rewrite apply_filter_truncate. raise_on_token Htoken Hparse Hrest.
Qed.

(** The theorem at the segment [pad-left:wide:0]. *)
Lemma malformed_integer_raises_ValueError_witness :
  Tq.apply_filters 0 ["foo"] ["pad-left:wide:0"] = Raise (ValueError "wide").
Proof.
  apply (malformed_integer_raises_ValueError "pad-left" "wide" ":0" 0 ["foo"]).
  - by_evaluation.
  - reflexivity.
  - reflexivity.
  - right. by exists "0".
Defined.

(** C2, as the specification has it, fails: on [indent:x] the run does not
    end with [InvalidFilterParameter]. *)
Lemma malformed_integer_is_not_InvalidFilterParameter :
  ¬ ∃ name position token,
      Tq.apply_filters 0 ["a"] ["indent:x"]
      = Raise (InvalidFilterParameter name position token).
Proof. intros (name & position & token & H). vm_compute in H. discriminate H. Qed.

(** ** Filters that take one line *)

Section elementwise.

Implicit Types (f name suffix : string) (D : list string).

(** Every segment that is not run as one of the seven filters on whole
    Documents is run line by line: what it returns, when it returns, is the
    Document mapped by a function of the segment alone. *)
Lemma apply_filter_elementwise f :
  f ∉ ["join"; "sort"; "unique"; "first"; "last"; "remove-empty"] →
  Str.startswith "col-width" f = false →
  ∃ g : string → string, ∀ fuel D D',
    Tq.apply_filter fuel D f = Done D' → D' = g <$> D.
Proof.
  intros Hname Hcw. unfold Tq.apply_filter.
  repeat (destruct (decide (f = _)) as [->|_];
          [exfalso; apply Hname; by_evaluation|]).
  destruct (Str.startswith "col-width" f); [discriminate Hcw|].
  destruct (Str.startswith "indent" f).
  { destruct (Tq.int_param _ 4) as [n| |]; [|by exists id..].
    exists (λ line, Tq.indent line n). by intros fuel D D' [= <-]. }
  destruct (Str.startswith "pad-left" f).
  { destruct (Tq.int_param _ 10) as [w| |]; [|by exists id..].
    eexists. intros fuel D D' H. rewrite bind_done in H.
    apply (for_each_done _ "") in H. exact H. }
  destruct (Str.startswith "pad-right" f).
  { destruct (Tq.int_param _ 10) as [w| |]; [|by exists id..].
    eexists. intros fuel D D' H. rewrite bind_done in H.
    apply (for_each_done _ "") in H. exact H. }
  destruct (Str.startswith "truncate" f).
  { destruct (Tq.int_param _ 10) as [n| |]; [|by exists id..].
    exists (λ line, Tq.truncate line n). by intros fuel D D' [= <-]. }
  unfold Tq.apply_registered.
  destruct (Tq.get_filters !! f) as [[func|func]|] eqn:E.
  - apply (whole_entry_shadowed 0 []) in E as [_ Hin].
    exfalso. apply Hname. rewrite !elem_of_cons in *. tauto.
  - eexists. intros fuel D D' H.
    apply (for_each_done _ "") in H. exact H.
  - exists id. intros fuel D D' [= <-]. by rewrite list_fmap_id.
Qed.

(** The segments of the filters on lines are not taken by the tests for
    the filters on whole Documents. *)
Lemma elementwise_segment name suffix :
  name ∈ elementwise_names → parameter_suffix suffix →
  (name +:+ suffix
     ∉ ["join"; "sort"; "unique"; "first"; "last"; "remove-empty"]) ∧
  Str.startswith "col-width" (name +:+ suffix) = false.
Proof.
  unfold elementwise_names. rewrite !elem_of_cons, elem_of_nil.
  intros Hname [->|[r ->]]; destruct_or!; try done; subst name;
    (split; [|by vm_compute]);
    intros Hin; rewrite ?elem_of_cons, ?elem_of_nil in Hin;
    cbv [String.append] in Hin; destruct_or!; try done; discriminate.
Qed.

(** Without parameters the filters on lines always return. *)
Lemma elementwise_default_total name fuel D :
  name ∈ elementwise_names →
  ∃ D', Tq.apply_filter fuel D name = Done D'.
Proof.
  unfold elementwise_names. rewrite !elem_of_cons, elem_of_nil.
  intros Hname. destruct_or!; try done; subst name;
    try (rewrite apply_filter_registered;
         [unfold Tq.apply_registered;
          match goal with
          | |- context [Tq.get_filters !! ?n] =>
              destruct (Tq.get_filters !! n) as [[func|func]|] eqn:E
          end;
          [eauto| |eauto];
          apply registry_entry in E as (_ & _ & Htotal);
          by apply for_each_total
         |by_evaluation
         |intros p Hp; unfold prefix_tested_names in Hp;
          rewrite !elem_of_cons, elem_of_nil in Hp;
          destruct_or!; try done; subst p; by vm_compute]).
  - pose proof (apply_filter_indent fuel D "") as H.
    change ("indent" +:+ "") with "indent" in H. rewrite H. by eexists.
  - pose proof (apply_filter_pad_left fuel D "") as H.
    change ("pad-left" +:+ "") with "pad-left" in H. rewrite H.
    apply (for_each_total (λ line, Tq.pad_left line 10 " ")).
    intros line. by eexists.
  - pose proof (apply_filter_pad_right fuel D "") as H.
    change ("pad-right" +:+ "") with "pad-right" in H. rewrite H.
    apply (for_each_total (λ line, Tq.pad_right line 10 " ")).
    intros line. by eexists.
  - pose proof (apply_filter_truncate fuel D "") as H.
    change ("truncate" +:+ "") with "truncate" in H. rewrite H. by eexists.
Qed.

End elementwise.

(** C3: for each of the eighteen filters on lines, with or without
    parameters, there is a function [g] of lines such that every Document
    the filter returns is the input Document mapped by [g]: it has the same
    length, and its line at a position is [g] of the input line at that
    position.  Without parameters the filter returns on every Document. *)
Theorem elementwise_filters_keep_length_and_positions
    (name suffix : string) :
  name ∈ elementwise_names →
  parameter_suffix suffix →
  (∃ g : string → string, ∀ fuel D D',
     Tq.apply_filters fuel D [name +:+ suffix] = Done D' →
     length D' = length D ∧ ∀ i, D' !! i = g <$> D !! i) ∧
  (∀ fuel D, ∃ D',
     Tq.apply_filters fuel D [name] = Done D' ∧ length D' = length D).
Proof.
  intros Hname Hsuffix.
  assert (∀ f (g : string → string),
            (∀ fuel D D', Tq.apply_filter fuel D f = Done D' → D' = g <$> D) →
            ∀ fuel D D', Tq.apply_filters fuel D [f] = Done D' →
            length D' = length D ∧ ∀ i, D' !! i = g <$> D !! i) as Hchain.
  { intros f g Hg fuel D D' H. simpl in H.
    apply bind_is_done in H as (D'' & H & [= <-]).
    apply Hg in H as ->. split; [by rewrite length_fmap|].
    intros i. by rewrite list_lookup_fmap. }
  split.
  - destruct (elementwise_segment name suffix Hname Hsuffix) as [Hnot Hcw].
    destruct (apply_filter_elementwise _ Hnot Hcw) as [g Hg].
    exists g. by apply Hchain.
  - intros fuel D.
    destruct (elementwise_default_total name fuel D Hname) as [D' HD'].
    exists D'. split; [simpl; by rewrite HD'|].
    destruct (elementwise_segment name "" Hname) as [Hnot Hcw]; [by left|].
    rewrite str_app_nil_r in Hnot, Hcw.
    destruct (apply_filter_elementwise _ Hnot Hcw) as [g Hg].
    apply Hg in HD' as ->. by rewrite length_fmap.
Qed.

(** The theorem at [pad-left:5:0] and the Document [foo; quux]. *)
Lemma elementwise_filters_keep_length_and_positions_witness :
  ∃ g : string → string, ∀ D',
    Tq.apply_filters 0 ["foo"; "quux"] ["pad-left:5:0"] = Done D' →
    length D' = 2 ∧ D' !! 1 = Some (g "quux").
Proof.
  destruct (elementwise_filters_keep_length_and_positions "pad-left" ":5:0")
    as [[g Hg] _].
  - by_evaluation.
  - right. by exists "5:0".
  - exists g. intros D' H. destruct (Hg 0 _ _ H) as [Hlen Hpos].
    split; [exact Hlen|exact (Hpos 1)].
Defined.

(** ** What the parser trims *)

Section parser.

Implicit Types (s t name last : string) (c sep : ascii) (l : list string).

Lemma lstrip_by_field p s c t :
  p c = false →
  Str.lstrip_by p (s +:+ String c t) = Str.lstrip_by p s +:+ String c t.
Proof.
  intros Hc. induction s as [|x s IH].
  - rewrite str_app_nil_l. simpl. by rewrite Hc.
  - rewrite str_app_cons. simpl. by destruct (p x).
Qed.

Lemma rstrip_by_field p s c t :
  p c = false →
  Str.rstrip_by p (s +:+ String c t) = s +:+ String c (Str.rstrip_by p t).
Proof.
  intros Hc. induction s as [|x s IH].
  - rewrite !str_app_nil_l. simpl. destruct (Str.rstrip_by p t); by rewrite ?Hc.
  - rewrite !str_app_cons. simpl. rewrite IH. by destruct s.
Qed.

Lemma has_char_lstrip_by p c s :
  has_char c s = false → has_char c (Str.lstrip_by p s) = false.
Proof.
  induction s as [|x s IH]; simpl; [done|].
  intros [Hx Hs]%orb_false_elim. destruct (p x); [auto|].
  simpl. by rewrite Hx, Hs.
Qed.

Lemma has_char_rstrip_by p c s :
  has_char c s = false → has_char c (Str.rstrip_by p s) = false.
Proof.
  induction s as [|x s IH]; simpl; [done|].
  intros [Hx Hs]%orb_false_elim. specialize (IH Hs).
  destruct (Str.rstrip_by p s) as [|y r].
  - destruct (p x); simpl; by rewrite ?Hx.
  - simpl in *. by rewrite Hx, IH.
Qed.

Lemma join_cons (d : string) s t l :
  Str.join d (s :: t :: l) = s +:+ d +:+ Str.join d (t :: l).
Proof. reflexivity. Qed.

(** Splitting what was joined gives the fields back, when no field has
    the separator in it. *)
Lemma split_join sep l :
  l ≠ [] → Forall (λ s, has_char sep s = false) l →
  Str.split sep (Str.join (String sep "") l) = l.
Proof.
  intros Hl Hall. induction Hall as [|s l Hs Hall IH]; [done|].
  destruct l as [|t l].
  - simpl. by apply split_no_sep.
  - rewrite join_cons.
    change (String sep "" +:+ Str.join (String sep "") (t :: l))
      with (String sep (Str.join (String sep "") (t :: l))).
    rewrite split_field by done. by rewrite IH.
Qed.

Lemma rstrip_by_join p sep l last :
  p sep = false →
  Str.rstrip_by p (Str.join (String sep "") (l ++ [last]))
  = Str.join (String sep "") (l ++ [Str.rstrip_by p last]).
Proof.
  intros Hsep. induction l as [|s l IH]; [done|].
  change ((s :: l) ++ [last]) with (s :: (l ++ [last])).
  change ((s :: l) ++ [Str.rstrip_by p last])
    with  (s :: (l ++ [Str.rstrip_by p last])).
  destruct (l ++ [last]) as [|t l'] eqn:E1;
    [by destruct l|].
  destruct (l ++ [Str.rstrip_by p last]) as [|t' l''] eqn:E2;
    [by destruct l|].
  rewrite !join_cons.
  change (String sep "" +:+ Str.join (String sep "") (t :: l'))
    with (String sep (Str.join (String sep "") (t :: l'))).
  by rewrite rstrip_by_field, IH.
Qed.

(** Stripping a segment strips the first token on the left and the last
    token on the right, and nothing else. *)
Lemma strip_segment name l last :
  Str.strip (Str.join ":" (name :: l ++ [last]))
  = Str.join ":" (Str.lstrip name :: l ++ [Str.rstrip last]).
Proof.
  unfold Str.strip, Str.strip_by, Str.lstrip, Str.rstrip.
  destruct (l ++ [last]) as [|t l'] eqn:E1; [by destruct l|].
  rewrite join_cons.
  change (":" +:+ Str.join ":" (t :: l'))
    with (String ":" (Str.join ":" (t :: l'))).
  rewrite lstrip_by_field, rstrip_by_field by reflexivity.
  rewrite <- E1, (rstrip_by_join _ ":") by reflexivity.
  by destruct (l ++ [Str.rstrip_by Char.is_space last]) eqn:E2;
    [destruct l|].
Qed.

Lemma parse_nonempty s :
  s ≠ "" →
  Tq.parse_filter_string (Some s) = Str.strip <$> Str.split "|" s.
Proof. by destruct s. Qed.

End parser.

(** C5, as the code has it: the parser strips each segment between two pipes
    as a whole and trims nothing else.  Of the tokens of a segment, the name
    loses the white space before it and the last token loses the white space
    after it; the tokens between them reach the filter as they are
    written. *)
Theorem parser_strips_segments_not_tokens :
  (∀ segments : list string,
     segments ≠ [] →
     Forall (λ s, has_char "|" s = false) segments →
     Str.join "|" segments ≠ "" →
     Tq.parse_filter_string (Some (Str.join "|" segments))
     = Str.strip <$> segments) ∧
  (∀ (name : string) (params : list string) (last : string),
     Forall (λ t, has_char ":" t = false) (name :: params ++ [last]) →
     Str.split ":" (Str.strip (Str.join ":" (name :: params ++ [last])))
     = Str.lstrip name :: params ++ [Str.rstrip last]).
Proof.
  split.
  - intros segments Hne Hall Hexpr.
    by rewrite parse_nonempty, split_join.
  - intros name params last Hall.
    rewrite strip_segment. apply split_join; [done|].
    apply Forall_cons in Hall as [Hname Hall].
    apply Forall_app in Hall as [Hparams Hlast].
    apply Forall_cons; split; [by apply has_char_lstrip_by|].
    apply Forall_app; split; [done|].
    rewrite Forall_singleton in Hlast. apply Forall_singleton.
    by apply has_char_rstrip_by.
Qed.

(** The theorem at the expression [ pad-right: 7 :* | trim ]. *)
Lemma parser_strips_segments_not_tokens_witness :
  Tq.parse_filter_string (Some " pad-right: 7 :* | trim ")
  = ["pad-right: 7 :*"; "trim"] ∧
  Str.split ":" (Str.strip " pad-right: 7 :* ") = ["pad-right"; " 7 "; "*"].
Proof.
  destruct parser_strips_segments_not_tokens as [Hsegments Htokens].
  split.
  - apply (Hsegments [" pad-right: 7 :* "; " trim "]).
    + discriminate.
    + repeat constructor.
    + discriminate.
  - apply (Htokens " pad-right" [" 7 "] "* "). repeat constructor.
Defined.

(** C5, as the specification has it, fails: the tokens that reach the filter
    for the expression [pad-left:5: ] are not the tokens written; the space
    given as the pad character has become the empty string, and the run
    fails in [rjust]. *)
Lemma trailing_space_parameter_is_stripped :
  Str.split ":" <$> Tq.parse_filter_string (Some "pad-left:5: ")
    ≠ [Str.split ":" "pad-left:5: "] ∧
  Str.split ":" <$> Tq.parse_filter_string (Some "pad-left:5: ")
    = [["pad-left"; "5"; ""]] ∧
  Tq.apply_filters 0 ["foo"] (Tq.parse_filter_string (Some "pad-left:5: "))
    = Raise TypeError.
Proof. split_and!; by vm_compute. Qed.


(** * Further properties of the filters *)

(** ** Characters *)

Ltac by_cases_on_char c :=
  destruct c as [[] [] [] [] [] [] [] []]; reflexivity.

Lemma lower_lower c : Char.lower (Char.lower c) = Char.lower c.
Proof. by_cases_on_char c. Qed.

Lemma upper_upper c : Char.upper (Char.upper c) = Char.upper c.
Proof. by_cases_on_char c. Qed.

Lemma lower_upper c : Char.lower (Char.upper c) = Char.lower c.
Proof. by_cases_on_char c. Qed.

Lemma upper_lower c : Char.upper (Char.lower c) = Char.upper c.
Proof. by_cases_on_char c. Qed.

Lemma is_cased_lower c : Char.is_cased (Char.lower c) = Char.is_cased c.
Proof. by_cases_on_char c. Qed.

Lemma is_cased_upper c : Char.is_cased (Char.upper c) = Char.is_cased c.
Proof. by_cases_on_char c. Qed.

Lemma is_alnum_lower c : Char.is_alnum (Char.lower c) = Char.is_alnum c.
Proof. by_cases_on_char c. Qed.

Lemma is_alnum_upper c : Char.is_alnum (Char.upper c) = Char.is_alnum c.
Proof. by_cases_on_char c. Qed.



(** ** Mapping the characters of a line *)

Section map_lemmas.

Implicit Types (s t : string) (f g : ascii → ascii).

Lemma len_map f s : Str.len (Str.map f s) = Str.len s.
Proof. induction s as [|c s IH]; simpl; by rewrite ?IH. Qed.

Lemma map_map f g s : Str.map f (Str.map g s) = Str.map (λ c, f (g c)) s.
Proof. induction s as [|c s IH]; simpl; by rewrite ?IH. Qed.

Lemma map_ext f g s : (∀ c, f c = g c) → Str.map f s = Str.map g s.
Proof. intros H. induction s as [|c s IH]; simpl; by rewrite ?H, ?IH. Qed.

Lemma map_app f s t : Str.map f (s +:+ t) = Str.map f s +:+ Str.map f t.
Proof.
  induction s as [|c s IH]; [done|].
  rewrite str_app_cons. simpl. by rewrite IH, str_app_cons.
Qed.

Lemma title_go_twice b s :
  Str.title_go b (Str.title_go b s) = Str.title_go b s.
Proof.
  revert b. induction s as [|c s IH]; intros b; simpl; [done|].
  destruct b.
  - by rewrite lower_lower, is_cased_lower, IH.
  - by rewrite upper_upper, is_cased_upper, IH.
Qed.

Lemma len_title_go b s : Str.len (Str.title_go b s) = Str.len s.
Proof. revert b. induction s as [|c s IH]; intros b; simpl; by rewrite ?IH. Qed.

End map_lemmas.

(** X1: the filters that change the case are idempotent, of [lowercase] and
    [uppercase] the one applied last decides, and none of them changes the
    number of characters of the line. *)
Theorem case_filters_idempotent (line : string) :
  Tq.lowercase (Tq.lowercase line) = Tq.lowercase line ∧
  Tq.uppercase (Tq.uppercase line) = Tq.uppercase line ∧
  Tq.capitalize (Tq.capitalize line) = Tq.capitalize line ∧
  Tq.title_case (Tq.title_case line) = Tq.title_case line ∧
  Tq.lowercase (Tq.uppercase line) = Tq.lowercase line ∧
  Tq.uppercase (Tq.lowercase line) = Tq.uppercase line ∧
  Str.len (Tq.lowercase line) = Str.len line ∧
  Str.len (Tq.uppercase line) = Str.len line ∧
  Str.len (Tq.capitalize line) = Str.len line ∧
  Str.len (Tq.title_case line) = Str.len line.
Proof.
  unfold Tq.lowercase, Tq.uppercase, Tq.capitalize, Tq.title_case,
    Str.lower, Str.upper, Str.title.
  split_and!.
  - rewrite map_map. apply map_ext, lower_lower.
  - rewrite map_map. apply map_ext, upper_upper.
  - destruct line as [|c r]; simpl; [done|].
    unfold Str.lower. rewrite upper_upper, map_map. f_equal.
    apply map_ext, lower_lower.
  - apply title_go_twice.
  - rewrite map_map. apply map_ext, lower_upper.
  - rewrite map_map. apply map_ext, upper_lower.
  - apply len_map.
  - apply len_map.
  - destruct line as [|c r]; simpl; [done|]. unfold Str.lower. by rewrite len_map.
  - apply len_title_go.
Qed.

(** ** [reverse] *)

Section reverse.

Implicit Types (s t acc : string).

Lemma rev_app_rev_app s acc t :
  String.rev_app (String.rev_app s acc) t = String.rev_app acc (s +:+ t).
Proof.
  revert acc t. induction s as [|c s IH]; intros acc t; simpl; [done|].
  by rewrite IH.
Qed.

Lemma len_rev_app s acc :
  Str.len (String.rev_app s acc) = Str.len s + Str.len acc.
Proof.
  revert acc. induction s as [|c s IH]; intros acc; simpl; [done|].
  rewrite IH. simpl. lia.
Qed.

Lemma rev_app_app s acc : String.rev_app s acc = String.rev_app s "" +:+ acc.
Proof.
  revert acc. induction s as [|c s IH]; intros acc; simpl; [done|].
  rewrite (IH (String c acc)), (IH (String c "")).
  by rewrite str_app_assoc.
Qed.

End reverse.

(** X2: [reverse] undoes itself, keeps the number of characters, and turns
    the concatenation of two lines into the concatenation of their reverses
    in the other order. *)
Theorem reverse_involutive (line other : string) :
  Tq.reverse (Tq.reverse line) = line ∧
  Str.len (Tq.reverse line) = Str.len line ∧
  Tq.reverse (line +:+ other) = Tq.reverse other +:+ Tq.reverse line.
Proof.
  unfold Tq.reverse, Str.reversed, String.rev. split_and!.
  - rewrite rev_app_rev_app. simpl. apply str_app_nil_r.
  - rewrite len_rev_app. simpl. lia.
  - revert other. induction line as [|c line IH]; intros other.
    + rewrite str_app_nil_l. simpl. by rewrite str_app_nil_r.
    + rewrite str_app_cons. simpl.
      rewrite (rev_app_app (line +:+ other)), (rev_app_app line).
      by rewrite IH, str_app_assoc.
Qed.

(** ** Stripping *)

Section strip_lemmas.

Implicit Types (s t : string) (p : ascii → bool) (f : ascii → ascii).

Lemma lstrip_by_head_not p s : head_not p (Str.lstrip_by p s) = true.
Proof.
  induction s as [|c s IH]; simpl; [done|].
  destruct (p c) eqn:Hc; [done|]. simpl. by rewrite Hc.
Qed.

Lemma lstrip_by_id p s : head_not p s = true → Str.lstrip_by p s = s.
Proof. destruct s as [|c s]; simpl; [done|]. by destruct (p c). Qed.

Lemma rstrip_by_last_not p s : last_not p (Str.rstrip_by p s) = true.
Proof.
  induction s as [|c s IH]; simpl; [done|].
  destruct (Str.rstrip_by p s) as [|c' r].
  - destruct (p c) eqn:Hc; simpl; [done|]. by rewrite Hc.
  - done.
Qed.

Lemma rstrip_by_id p s : last_not p s = true → Str.rstrip_by p s = s.
Proof.
  induction s as [|c s IH]; simpl; [done|].
  destruct s as [|c' r].
  - simpl. by destruct (p c).
  - intros H. by rewrite (IH H).
Qed.

Lemma rstrip_by_head_not p s :
  head_not p s = true → head_not p (Str.rstrip_by p s) = true.
Proof.
  destruct s as [|c s]; simpl; [done|].
  intros Hc. destruct (Str.rstrip_by p s); [|done].
  destruct (p c) eqn:E; [done|]. simpl. by rewrite E.
Qed.

Lemma len_lstrip_by p s : Str.len (Str.lstrip_by p s) ≤ Str.len s.
Proof.
  induction s as [|c s IH]; simpl; [done|].
  destruct (p c); simpl; lia.
Qed.

Lemma len_rstrip_by p s : Str.len (Str.rstrip_by p s) ≤ Str.len s.
Proof.
  induction s as [|c s IH]; simpl; [done|].
  destruct (Str.rstrip_by p s); [destruct (p c)|]; simpl in *; lia.
Qed.

(** Stripping is idempotent, whatever is stripped. *)
Lemma strip_by_twice p s :
  Str.strip_by p (Str.strip_by p s) = Str.strip_by p s.
Proof.
  unfold Str.strip_by.
  rewrite (lstrip_by_id p (Str.rstrip_by p _))
    by apply rstrip_by_head_not, lstrip_by_head_not.
  apply rstrip_by_id, rstrip_by_last_not.
Qed.

Lemma head_not_map p f s :
  (∀ c, p (f c) = p c) → head_not p (Str.map f s) = head_not p s.
Proof. intros H. destruct s; simpl; by rewrite ?H. Qed.

Lemma last_not_map p f s :
  (∀ c, p (f c) = p c) → last_not p (Str.map f s) = last_not p s.
Proof.
  intros H. induction s as [|c s IH]; [done|].
  destruct s as [|c' r]; [simpl; by rewrite H|].
  change (last_not p (Str.map f (String c' r)) = last_not p (String c' r)).
  exact IH.
Qed.



End strip_lemmas.

(** X3: [trim] and [dedent] are idempotent, [trim] absorbs [dedent] on
    either side, a trimmed line neither starts nor ends with white space, a
    dedented line does not start with white space, and neither filter makes
    the line longer. *)
Theorem trim_and_dedent (line : string) :
  Tq.trim (Tq.trim line) = Tq.trim line ∧
  Tq.dedent (Tq.dedent line) = Tq.dedent line ∧
  Tq.trim (Tq.dedent line) = Tq.trim line ∧
  Tq.dedent (Tq.trim line) = Tq.trim line ∧
  head_not Char.is_space (Tq.trim line) = true ∧
  last_not Char.is_space (Tq.trim line) = true ∧
  head_not Char.is_space (Tq.dedent line) = true ∧
  Str.len (Tq.trim line) ≤ Str.len (Tq.dedent line) ≤ Str.len line.
Proof.
  unfold Tq.trim, Tq.dedent, Str.strip, Str.lstrip. split_and!.
  - apply strip_by_twice.
  - apply lstrip_by_id, lstrip_by_head_not.
  - unfold Str.strip_by. f_equal. apply lstrip_by_id, lstrip_by_head_not.
  - apply lstrip_by_id, rstrip_by_head_not, lstrip_by_head_not.
  - apply rstrip_by_head_not, lstrip_by_head_not.
  - apply rstrip_by_last_not.
  - apply lstrip_by_head_not.
  - apply len_rstrip_by.
  - apply len_lstrip_by.
Qed.



(** ** [truncate] and the padding filters *)

Section truncate_pad.

Implicit Types (s t line : string) (c : ascii) (k n : nat) (w : Z).

Lemma len_append s t : Str.len (s +:+ t) = Str.len s + Str.len t.
Proof.
  induction s as [|c s IH]; [done|].
  rewrite str_app_cons. simpl. by rewrite IH.
Qed.

Lemma take_take k s : Str.take k (Str.take k s) = Str.take k s.
Proof.
  revert s. induction k as [|k IH]; intros [|c s]; simpl; by rewrite ?IH.
Qed.

Lemma take_ge k s : Str.len s ≤ k → Str.take k s = s.
Proof.
  revert s. induction k as [|k IH]; intros [|c s]; simpl; try done; [lia|].
  intros H. rewrite IH; [done|lia].
Qed.




End truncate_pad.

(** X6: [truncate] with a count [k] that is not negative keeps the first [k]
    characters: what it returns starts the line, has [k] characters or the
    whole line when that is shorter, and is not changed by truncating again;
    a line that is short enough is returned as it is.  With a negative count
    [-(k+1)] it drops the last [k+1] characters instead. *)
Theorem truncate_keeps_a_prefix (line : string) (k : nat) :
  (∃ rest, line = Tq.truncate line (Z.of_nat k) +:+ rest) ∧
  Str.len (Tq.truncate line (Z.of_nat k)) = k `min` Str.len line ∧
  Tq.truncate (Tq.truncate line (Z.of_nat k)) (Z.of_nat k)
    = Tq.truncate line (Z.of_nat k) ∧
  Tq.truncate line (Z.of_nat (Str.len line + k)) = line ∧
  (∃ rest, line = Tq.truncate line (- Z.of_nat (S k)) +:+ rest
           ∧ Str.len rest = S k `min` Str.len line).
Proof.
  unfold Tq.truncate, Str.slice_to, Str.bound.
  assert ((0 <=? Z.of_nat k)%Z = true) as -> by (apply Z.leb_le; lia).
  assert ((0 <=? Z.of_nat (Str.len line + k))%Z = true) as ->
    by (apply Z.leb_le; lia).
  assert ((0 <=? - Z.of_nat (S k))%Z = false) as ->
    by (apply Z.leb_gt; lia).
  rewrite !Nat2Z.id. split_and!.
  - exists (Str.drop k line). by rewrite take_drop.
  - apply len_take.
  - apply take_take.
  - apply take_ge. lia.
  - exists (Str.drop (Str.len line - Z.to_nat (- - Z.of_nat (S k))) line).
    rewrite take_drop, len_drop. split; [done|lia].
Qed.





(** ** The filters on whole Documents *)

Section whole_documents.

Implicit Types (l : string) (D lines earlier : list string).

Lemma Forall_of_sublist {A} (P : A → Prop) (l1 l2 : list A) :
  sublist l1 l2 → Forall P l2 → Forall P l1.
Proof.
  induction 1 as [|x l1 l2 _ IH|x l1 l2 _ IH]; intros H;
    [done|inversion H; subst; constructor; auto|inversion H; auto].
Qed.

Lemma StronglySorted_of_sublist {A} (R : relation A) (l1 l2 : list A) :
  sublist l1 l2 → StronglySorted R l2 → StronglySorted R l1.
Proof.
  induction 1 as [|x l1 l2 Hsub IH|x l1 l2 _ IH]; intros H; [done|..].
  - apply StronglySorted_inv in H as [H1 H2].
    constructor; [auto|]. by apply (Forall_of_sublist _ _ l2).
  - apply StronglySorted_inv in H as [H1 _]. auto.
Qed.

(** On a Document without duplicates, none of whose lines has been seen,
    nothing is removed. *)
Lemma first_occurrences_from_id earlier lines :
  NoDup lines → (∀ l, l ∈ lines → l ∉ earlier) →
  first_occurrences_from earlier lines = lines.
Proof.
  intros Hnd. revert earlier.
  induction Hnd as [|l lines Hl Hnd IH]; intros earlier Hnew; simpl; [done|].
  rewrite decide_False by (apply Hnew; left).
  f_equal. apply IH. intros l' Hl'.
  rewrite elem_of_app, list_elem_of_singleton. intros [Hin| ->].
  - by apply (Hnew l'); [right|].
  - done.
Qed.

Lemma sort_sorted D : StronglySorted String.le (Tq.sort D).
Proof. apply StronglySorted_merge_sort; apply _. Qed.

Lemma sort_permutation D : Tq.sort D ≡ₚ D.
Proof. apply merge_sort_Permutation. Qed.

Lemma sort_of_permutation D D' : D ≡ₚ D' → Tq.sort D = Tq.sort D'.
Proof.
  intros H. apply (StronglySorted_unique String.le); [apply sort_sorted..|].
  by rewrite !sort_permutation.
Qed.

Lemma len_concat D :
  Str.len (Str.concat D) = sum_list (String.length <$> D).
Proof.
  induction D as [|l D IH]; simpl; [done|].
  by rewrite len_append, IH.
Qed.

End whole_documents.

(** X10: [remove-empty] keeps exactly the lines that have a character other
    than white space, in their order, and removing again changes
    nothing. *)
Theorem remove_empty_keeps_the_other_lines (D : list string) :
  sublist (Tq.remove_empty D) D ∧
  (∀ l, l ∈ Tq.remove_empty D ↔ l ∈ D ∧ Tq.trim l ≠ "") ∧
  Tq.remove_empty (Tq.remove_empty D) = Tq.remove_empty D ∧
  (Tq.remove_empty D = D ↔ Forall (λ l, Tq.trim l ≠ "") D).
Proof.
  unfold Tq.remove_empty, Tq.trim. split_and!.
  - apply sublist_filter.
  - intros l. rewrite list_elem_of_filter. tauto.
  - rewrite list_filter_filter. apply list_filter_iff. tauto.
  - induction D as [|l D IH]; [by split|].
    rewrite filter_cons. destruct (decide (Str.strip l ≠ "")) as [Hl|Hl].
    + rewrite Forall_cons. split.
      * intros [= H]. split; [done|]. by apply IH.
      * intros [_ H]. f_equal. by apply IH.
    + split.
      * intros H. pose proof (length_filter (λ l, Str.strip l ≠ "") D) as Hlen.
        rewrite H in Hlen. simpl in Hlen. lia.
      * intros [? _]%Forall_cons. done.
Qed.

(** X11: [sort] returns the lines of the Document, each as often as it
    occurs, in ascending order of the character codes; sorting again changes
    nothing, and the order of the lines given does not matter. *)
Theorem sort_orders_the_lines (D D' : list string) :
  Tq.sort D ≡ₚ D ∧
  StronglySorted String.le (Tq.sort D) ∧
  length (Tq.sort D) = length D ∧
  Tq.sort (Tq.sort D) = Tq.sort D ∧
  Tq.sort (D ++ D') = Tq.sort (D' ++ D) ∧
  Tq.sort (reverse D) = Tq.sort D.
Proof.
  split_and!.
  - apply sort_permutation.
  - apply sort_sorted.
  - by rewrite sort_permutation.
  - apply sort_of_permutation, sort_permutation.
  - apply sort_of_permutation, Permutation_app_comm.
  - apply sort_of_permutation, reverse_Permutation.
Qed.

(** X12: [unique] is idempotent, never returns more lines than it is given,
    and returns the Document as it is exactly when no line occurs twice. *)
Theorem unique_idempotent (D : list string) :
  Tq.unique (Tq.unique D) = Tq.unique D ∧
  length (Tq.unique D) ≤ length D ∧
  (Tq.unique D = D ↔ NoDup D).
Proof.
  rewrite !unique_first_occurrences. unfold first_occurrences. split_and!.
  - apply first_occurrences_from_id.
    + apply first_occurrences_from_NoDup.
    + intros l _. apply not_elem_of_nil.
  - apply sublist_length, first_occurrences_from_sublist.
  - split.
    + intros <-. apply first_occurrences_from_NoDup.
    + intros H. apply first_occurrences_from_id; [done|].
      intros l _. apply not_elem_of_nil.
Qed.

(** X13: [sort | unique] and [unique | sort] give the same Document: the
    lines of the input, each once, in ascending order. *)
Theorem sort_and_unique_commute (D : list string) :
  Tq.unique (Tq.sort D) = Tq.sort (Tq.unique D) ∧
  StronglySorted String.le (Tq.unique (Tq.sort D)) ∧
  NoDup (Tq.unique (Tq.sort D)) ∧
  (∀ l, l ∈ Tq.unique (Tq.sort D) ↔ l ∈ D).
Proof.
  assert (∀ E l, l ∈ Tq.unique E ↔ l ∈ E) as Helem.
  { intros E l. rewrite unique_first_occurrences. unfold first_occurrences.
    rewrite first_occurrences_from_elem.
    split; [by intros [? _]|]. split; [done|]. apply not_elem_of_nil. }
  assert (∀ E, NoDup (Tq.unique E)) as Hnd.
  { intros E. rewrite unique_first_occurrences.
    apply first_occurrences_from_NoDup. }
  assert (StronglySorted String.le (Tq.unique (Tq.sort D))) as Hsorted.
  { apply (StronglySorted_of_sublist _ _ (Tq.sort D)); [|apply sort_sorted].
    rewrite unique_first_occurrences. apply first_occurrences_from_sublist. }
  split_and!; [|done|done|].
  - apply (StronglySorted_unique String.le); [done|apply sort_sorted|].
    apply NoDup_Permutation; [done|by rewrite sort_permutation|].
    intros l. by rewrite Helem, !sort_permutation, Helem.
  - intros l. by rewrite Helem, sort_permutation.
Qed.

(** X14: on a Document that has a line, [sort | first] gives its least line
    and [sort | last] its greatest. *)
Theorem first_and_last_of_sorted (D : list string) (l : string) :
  l ∈ D →
  ∃ least greatest,
    Tq.first (Tq.sort D) = [least] ∧ Tq.last (Tq.sort D) = [greatest] ∧
    least ∈ D ∧ greatest ∈ D ∧
    String.le least l ∧ String.le l greatest.
Proof.
  intros Hl. rewrite <- (sort_permutation D) in Hl.
  pose proof (sort_sorted D) as Hsorted.
  assert (∀ x, x ∈ Tq.sort D → x ∈ D) as Hback
    by (intros x; by rewrite sort_permutation).
  unfold Tq.first, Tq.last.
  destruct (Tq.sort D) as [|least E] eqn:HE; [by apply elem_of_nil in Hl|].
  destruct (list.last (least :: E)) as [greatest|] eqn:Hlast;
    [|by apply last_None in Hlast].
  exists least, greatest.
  pose proof Hsorted as Hall.
  apply StronglySorted_inv in Hsorted as [_ Hleast].
  split_and!; try done.
  - apply Hback. left.
  - apply Hback. by apply last_Some_elem_of.
  - apply elem_of_cons in Hl as [->|Hl]; [done|].
    by apply (proj1 (Forall_forall _ _) Hleast).
  - apply last_Some in Hlast as [E' HE'].
    rewrite HE' in Hl, Hall.
    apply elem_of_app in Hl as [Hl|Hl%list_elem_of_singleton]; [|by subst].
    by apply (StronglySorted_app_1_elem_of String.le E' [greatest] l greatest);
      [..|left].
Qed.

(** The theorem at the Document [pear; apple; fig]. *)
Lemma first_and_last_of_sorted_witness :
  ∃ least greatest,
    Tq.first (Tq.sort ["pear"; "apple"; "fig"]) = [least] ∧
    Tq.last (Tq.sort ["pear"; "apple"; "fig"]) = [greatest] ∧
    String.le least "fig" ∧ String.le "fig" greatest.
Proof.
  destruct (first_and_last_of_sorted ["pear"; "apple"; "fig"] "fig")
    as (least & greatest & H1 & H2 & _ & _ & H3 & H4).
  - by_evaluation.
  - exists least, greatest. split_and!; assumption.
Defined.

(** X15: [join] returns one line, which has the characters of all the lines;
    joining again changes nothing, and joining two Documents one after the
    other joins their joined lines. *)
Theorem join_gives_one_line (D D' : list string) :
  (∃ line, Tq.join D = [line] ∧
           Str.len line = sum_list (String.length <$> D)) ∧
  Tq.join (Tq.join D) = Tq.join D ∧
  Tq.join (D ++ D') = Tq.join (Tq.join D ++ Tq.join D').
Proof.
  unfold Tq.join. split_and!.
  - eexists. split; [done|]. apply len_concat.
  - simpl. by rewrite str_app_nil_r.
  - simpl. rewrite str_app_nil_r. f_equal.
    induction D as [|l D IH]; simpl; [done|].
    by rewrite IH, str_app_assoc.
Qed.

(** ** [col_width] on whole Documents *)

Section col_width_documents.

Implicit Types (line last : string) (result out lines D : list string) (w : Z).

Lemma concat_app D D' : Str.concat (D ++ D') = Str.concat D +:+ Str.concat D'.
Proof.
  induction D as [|l D IH]; simpl; [done|]. by rewrite IH, str_app_assoc.
Qed.

(** A line that fits is left to the [if] after the loop. *)
Lemma while_fits fuel w line result :
  (Z.of_nat (Str.len line) ≤ w)%Z →
  Tq.col_width_while fuel w line result = Done (line, result).
Proof.
  intros H. rewrite while_unfold.
  by destruct (Z.gtb_spec (Z.of_nat (Str.len line)) w); [lia|].
Qed.

(** With a width of zero or less the loop ends only when it does not
    start. *)
Lemma while_done_nonpositive fuel w line result last result' :
  (w ≤ 0)%Z →
  Tq.col_width_while fuel w line result = Done (last, result') →
  last = line ∧ result' = result.
Proof.
  intros Hw H.
  destruct (Z_le_gt_dec (Z.of_nat (Str.len line)) w) as [Hle|Hgt].
  - rewrite while_fits in H by done. by injection H as <- <-.
  - rewrite while_diverges in H by lia. discriminate H.
Qed.

(** What the lines are that the loop and the [if] after it add for one
    line. *)
Lemma line_done fuel w line result last result' :
  Tq.col_width_while fuel w line result = Done (last, result') →
  ∃ new,
    (if decide (last = "") then result' else result' ++ [last])
      = result ++ new ∧
    Str.concat new = line ∧
    Forall (λ l, l ≠ "" ∧ (Z.of_nat (Str.len l) ≤ w)%Z) new.
Proof.
  intros H.
  assert (∃ chunks,
            result' = result ++ chunks ∧
            Str.concat chunks +:+ last = line ∧
            Forall (λ l, l ≠ "" ∧ (Z.of_nat (Str.len l) ≤ w)%Z) chunks ∧
            (Z.of_nat (Str.len last) ≤ w)%Z)
    as (chunks & -> & Hcat & Hchunks & Hlast).
  { destruct (Z_le_gt_dec w 0) as [Hw|Hw].
    - pose proof H as Hfits. apply while_done in Hfits as (_ & _ & _ & _ & ?).
      apply while_done_nonpositive in H as [-> ->]; [|done].
      exists []. by rewrite app_nil_r.
    - apply while_done in H as (chunks & -> & Hcat & Hall & Hlast).
      exists chunks. split_and!; try done.
      eapply Forall_impl; [exact Hall|]. simpl. intros l Hl.
      split; [|lia]. intros ->. simpl in Hl. lia. }
  destruct (decide (last = "")) as [->|Hne].
  - exists chunks. by rewrite str_app_nil_r in Hcat.
  - exists (chunks ++ [last]). split_and!.
    + by rewrite app_assoc.
    + by rewrite concat_snoc.
    + apply Forall_app. split; [done|]. by repeat constructor.
Qed.

Lemma for_done fuel w result lines out :
  Tq.col_width_for fuel w result lines = Done out →
  ∃ new,
    out = result ++ new ∧
    Str.concat new = Str.concat lines ∧
    Forall (λ l, l ≠ "" ∧ (Z.of_nat (Str.len l) ≤ w)%Z) new.
Proof.
  revert result. induction lines as [|line lines IH]; intros result H.
  - simpl in H. injection H as <-. exists []. by rewrite app_nil_r.
  - simpl in H. apply bind_is_done in H as ([last result'] & Hwhile & H).
    simpl in H.
    apply line_done in Hwhile as (new & Hnew & Hcat & Hall).
    rewrite Hnew in H. apply IH in H as (new' & -> & Hcat' & Hall').
    exists (new ++ new'). split_and!.
    + by rewrite app_assoc.
    + rewrite concat_app, Hcat, Hcat'. done.
    + by apply Forall_app.
Qed.

Lemma for_fits fuel w result lines :
  Forall (λ l, l ≠ "" ∧ (Z.of_nat (Str.len l) ≤ w)%Z) lines →
  Tq.col_width_for fuel w result lines = Done (result ++ lines).
Proof.
  intros Hall. revert result.
  induction Hall as [|line lines [Hne Hlen] _ IH]; intros result; simpl.
  - by rewrite app_nil_r.
  - rewrite while_fits by done. simpl.
    rewrite decide_False by done. rewrite IH. by rewrite <- app_assoc.
Qed.

(** The lines one line is cut into, counted. *)
Lemma while_count fuel (k : nat) line result :
  Str.len line ≤ fuel →
  ∃ chunks last,
    Tq.col_width_while fuel (Z.of_nat (S k)) line result
      = Done (last, result ++ chunks) ∧
    length chunks = (Str.len line - 1) `div` S k ∧
    (last = "" ↔ line = "").
Proof.
  revert line result. induction fuel as [|fuel IH]; intros line result Hfuel;
    rewrite while_unfold;
    destruct (Z.gtb_spec (Z.of_nat (Str.len line)) (Z.of_nat (S k)))
      as [Hgt|Hle].
  - lia.
  - exists [], line. rewrite app_nil_r. split_and!; [done| |done].
    symmetry. apply Nat.div_small. lia.
  - pose proof (remainder_shrinks (Z.of_nat (S k)) line ltac:(lia) ltac:(lia))
      as Hshrink.
    assert (Str.len (Str.slice_from (Z.of_nat (S k)) line)
            = Str.len line - S k) as Hrest.
    { unfold Str.slice_from, Str.bound.
      assert ((0 <=? Z.of_nat (S k))%Z = true) as -> by (apply Z.leb_le; lia).
      by rewrite len_drop, Nat2Z.id. }
    destruct (IH (Str.slice_from (Z.of_nat (S k)) line)
                (result ++ [Str.slice_to (Z.of_nat (S k)) line])
                ltac:(lia)) as (chunks & last & -> & Hcount & Hlast).
    exists (Str.slice_to (Z.of_nat (S k)) line :: chunks), last. split_and!.
    + by rewrite <- app_assoc.
    + change (S (length chunks) = (Str.len line - 1) `div` S k).
      rewrite Hcount, Hrest.
      replace (Str.len line - 1) with (Str.len line - S k - 1 + 1 * S k)
        by lia.
      rewrite Nat.div_add by done. lia.
    + rewrite Hlast. split.
      * intros H. rewrite H in Hrest. simpl in Hrest. lia.
      * intros ->. simpl in Hgt. lia.
  - exists [], line. rewrite app_nil_r. split_and!; [done| |done].
    symmetry. apply Nat.div_small. lia.
Qed.

Lemma for_count fuel (k : nat) result lines :
  Forall (λ l, Str.len l ≤ fuel) lines →
  ∃ out,
    Tq.col_width_for fuel (Z.of_nat (S k)) result lines = Done out ∧
    length out
    = length result
      + sum_list ((λ l, (Str.len l + k) `div` S k) <$> lines).
Proof.
  intros Hall. revert result.
  induction Hall as [|line lines Hline _ IH]; intros result.
  - exists result. split; [done|]. simpl. lia.
  - rewrite fmap_cons.
    change (sum_list (?x :: ?l)) with (x + sum_list l).
    change (Tq.col_width_for fuel (Z.of_nat (S k)) result (line :: lines))
      with (st ← Tq.col_width_while fuel (Z.of_nat (S k)) line result;
            Tq.col_width_for fuel (Z.of_nat (S k))
              (if decide (st.1 = "") then st.2 else st.2 ++ [st.1]) lines).
    destruct (while_count fuel k line result Hline)
      as (chunks & last & -> & Hcount & Hlast).
    rewrite bind_done. cbn [fst snd].
    destruct (IH (if decide (last = "") then result ++ chunks
                  else (result ++ chunks) ++ [last])) as (out & -> & Hout).
    exists out. split; [done|]. rewrite Hout.
    destruct (decide (last = "")) as [Hl|Hl].
    + apply Hlast in Hl as ->. rewrite length_app, Hcount.
      change (Str.len "") with 0.
      rewrite (Nat.div_small (0 + k) (S k)), (Nat.div_small (0 - 1) (S k))
        by lia.
      lia.
    + assert (Str.len line ≠ 0) as Hne.
      { intros H%len_zero. by apply Hl, Hlast. }
      rewrite !length_app, Hcount.
      change (length [last]) with 1.
      replace (Str.len line + k) with (Str.len line - 1 + 1 * S k) by lia.
      rewrite Nat.div_add by done. lia.
Qed.

End col_width_documents.

(** X16: when [col-width] returns, the lines it returns are the text of the
    Document cut anew: joined they give what the lines of the Document
    joined give, none of them is empty and none is longer than the
    width. *)
Theorem col_width_keeps_the_text
    (fuel : nat) (D out : list string) (n : Z) :
  Tq.col_width fuel D n = Done out →
  Tq.join out = Tq.join D ∧
  Forall (λ l, l ≠ "" ∧ (Z.of_nat (Str.len l) ≤ n)%Z) out.
Proof.
  intros H. apply for_done in H as (new & -> & Hcat & Hall).
  unfold Tq.join. simpl. by rewrite Hcat.
Qed.

(** The theorem at the Document [abcd; (empty); ef] and the width 3. *)
Lemma col_width_keeps_the_text_witness :
  Tq.join ["abc"; "d"; "ef"] = Tq.join ["abcd"; ""; "ef"].
Proof.
  apply (col_width_keeps_the_text 2 ["abcd"; ""; "ef"] ["abc"; "d"; "ef"] 3).
  reflexivity.
Defined.

(** X17: [col-width] returns a Document as it is when none of its lines is
    empty or longer than the width, whatever the number of iterations it may
    use; so applying it again to what it has returned changes nothing. *)
Theorem col_width_leaves_lines_that_fit
    (fuel fuel' : nat) (D out : list string) (n : Z) :
  (Forall (λ l, l ≠ "" ∧ (Z.of_nat (Str.len l) ≤ n)%Z) D →
   Tq.col_width fuel D n = Done D) ∧
  (Tq.col_width fuel D n = Done out → Tq.col_width fuel' out n = Done out).
Proof.
  split.
  - intros H. unfold Tq.col_width. by rewrite for_fits.
  - intros H. apply for_done in H as (new & -> & _ & Hall).
    unfold Tq.col_width. by rewrite for_fits.
Qed.

(** The theorem at the Document [abcd; ef] and the width 3. *)
Lemma col_width_leaves_lines_that_fit_witness :
  Tq.col_width 0 ["abc"; "d"; "ef"] 3 = Done ["abc"; "d"; "ef"].
Proof.
  apply (proj2 (col_width_leaves_lines_that_fit 2 0 ["abcd"; "ef"]
                  ["abc"; "d"; "ef"] 3)).
  reflexivity.
Defined.

(** X18: with the width [k + 1], [col-width] returns for every line of [c]
    characters the quotient of [c + k] by [k + 1] lines, which is [c]
    divided by the width and rounded up; the longest line bounds the
    iterations it needs. *)
Theorem col_width_line_count (D : list string) (k : nat) :
  ∃ out,
    Tq.col_width (max_list (String.length <$> D)) D (Z.of_nat (S k))
      = Done out ∧
    length out = sum_list ((λ l, (Str.len l + k) `div` S k) <$> D).
Proof.
  destruct (for_count (max_list (String.length <$> D)) k [] D)
    as (out & Hout & Hlen).
  - apply Forall_forall. intros l Hl.
    apply max_list_elem_of_le, list_elem_of_fmap. eauto.
  - exists out. split; [done|]. by rewrite Hlen.
Qed.

(** ** Chains and segments *)

Section chains.

Implicit Types (f a b s : string) (D : list string).

Lemma bind_assoc {A B C} (m : outcome A) (k : A → outcome B)
    (k' : B → outcome C) :
  (m ≫= k) ≫= k' = m ≫= (λ x, k x ≫= k').
Proof. by destruct m. Qed.

Lemma apply_filters_app fuel D (c1 c2 : list string) :
  Tq.apply_filters fuel D (c1 ++ c2)
  = Tq.apply_filters fuel D c1 ≫= λ D', Tq.apply_filters fuel D' c2.
Proof.
  revert D. induction c1 as [|f c1 IH]; intros D; [done|].
  change (Tq.apply_filter fuel D f
            ≫= (λ D', Tq.apply_filters fuel D' (c1 ++ c2))
          = (Tq.apply_filter fuel D f
               ≫= λ D', Tq.apply_filters fuel D' c1)
              ≫= λ D', Tq.apply_filters fuel D' c2).
  rewrite bind_assoc. destruct (Tq.apply_filter fuel D f); [|done..].
  rewrite !bind_done. apply IH.
Qed.

(** [split] at a separator splits what is before it and what is after
    it. *)
Lemma split_app sep a b :
  Str.split sep (a +:+ String sep b) = Str.split sep a ++ Str.split sep b.
Proof.
  unfold Str.split. induction a as [|c a IH].
  - rewrite str_app_nil_l. simpl. destruct (Str.split_go sep b).
    unfold Char.eqb. by rewrite bool_decide_eq_true_2.
  - rewrite str_app_cons. simpl.
    destruct (Str.split_go sep (a +:+ String sep b)) as [w ws].
    destruct (Str.split_go sep a) as [w' ws'].
    destruct (Str.split_go sep b) as [w'' ws''].
    injection IH as -> ->. by destruct (Char.eqb c sep).
Qed.

(** The chain of an expression, the empty expression included, runs as the
    stripped segments between its pipes. *)
Lemma run_parsed fuel D s :
  Tq.apply_filters fuel D (Tq.parse_filter_string (Some s))
  = Tq.apply_filters fuel D (Str.strip <$> Str.split "|" s).
Proof. by destruct s. Qed.

(** The lambdas of the registry, reached by their names. *)
Lemma apply_filter_lambda fuel D name (g : string → string) :
  Tq.get_filters !! name = Some (Tq.PerLine (λ l, Done (g l))) →
  name ∉ ["join"; "sort"; "unique"; "first"; "last"; "remove-empty"] →
  (∀ p, p ∈ prefix_tested_names → Str.startswith p name = false) →
  Tq.apply_filter fuel D name = Done (g <$> D).
Proof.
  intros Hget Hname Hprefix.
  rewrite apply_filter_registered by done.
  unfold Tq.apply_registered. rewrite Hget.
  induction D as [|l D IH]; [done|]. simpl. by rewrite IH.
Qed.

End chains.

(** X19: the pipe is sequential composition.  A chain made of two chains
    runs the first and then the second on what the first returns, and an
    exception or a loop without end in the first is the outcome of the
    whole; the expression [a|b] runs as the expression [a] followed by the
    expression [b]. *)
Theorem pipe_is_sequential_composition
    (fuel : nat) (D : list string) (c1 c2 : list string) (a b : string) :
  Tq.apply_filters fuel D (c1 ++ c2)
    = (Tq.apply_filters fuel D c1 ≫= λ D', Tq.apply_filters fuel D' c2) ∧
  (∀ e, Tq.apply_filters fuel D c1 = Raise e →
        Tq.apply_filters fuel D (c1 ++ c2) = Raise e) ∧
  (Tq.apply_filters fuel D c1 = OutOfFuel →
   Tq.apply_filters fuel D (c1 ++ c2) = OutOfFuel) ∧
  Tq.apply_filters fuel D (Tq.parse_filter_string (Some (a +:+ "|" +:+ b)))
    = (Tq.apply_filters fuel D (Tq.parse_filter_string (Some a))
       ≫= λ D', Tq.apply_filters fuel D' (Tq.parse_filter_string (Some b))).
Proof.
  split_and!.
  - apply apply_filters_app.
  - intros e H. by rewrite apply_filters_app, H.
  - intros H. by rewrite apply_filters_app, H.
  - rewrite run_parsed.
    change (a +:+ "|" +:+ b) with (a +:+ String "|" b).
    rewrite split_app, fmap_app, apply_filters_app, <- run_parsed.
    destruct (Tq.apply_filters fuel D (Tq.parse_filter_string (Some a)));
      [|done..].
    rewrite !bind_done. by rewrite run_parsed.
Qed.

(** The theorem at [col-width:0 | join] with fuel 100: the loop without end
    of the first segment is the outcome of the chain. *)
Lemma pipe_is_sequential_composition_witness :
  Tq.apply_filters 100 ["ab"] (["col-width:0"] ++ ["join"]) = OutOfFuel.
Proof.
  apply (proj1 (proj2 (proj2
           (pipe_is_sequential_composition 100 ["ab"] ["col-width:0"]
              ["join"] "" "")))).
  vm_compute. reflexivity.
Defined.

(** X20: a filter that takes no parameter is switched off by giving it one:
    the segment [sort:x], like every segment made of such a name, a colon
    and anything, returns the Document as it is. *)
Theorem parameter_switches_parameterless_filter_off
    (name r : string) (fuel : nat) (D : list string) :
  name ∈ parameterless_names →
  Tq.apply_filters fuel D [name +:+ ":" +:+ r] = Done D.
Proof.
  unfold parameterless_names. rewrite !elem_of_cons, elem_of_nil.
  intros Hname. simpl.
  assert (Tq.apply_filter fuel D (name +:+ ":" +:+ r) = Done D) as ->; [|done].
  destruct_or!; try done; subst name;
    (rewrite apply_filter_registered;
     [unfold Tq.apply_registered;
      match goal with
      | |- context [Tq.get_filters !! ?f] =>
          destruct (Tq.get_filters !! f) as [e|] eqn:E; [|done];
          apply registry_entry in E as (_ & E & _);
          vm_compute in E; discriminate E
      end
     |intros Hin; rewrite ?elem_of_cons, ?elem_of_nil in Hin;
      cbv [String.append] in Hin; destruct_or!; try done; discriminate
     |intros p Hp; unfold prefix_tested_names in Hp;
      rewrite !elem_of_cons, elem_of_nil in Hp;
      destruct_or!; try done; subst p; by vm_compute]).
Qed.

(** The theorem at the segment [sort:x]. *)
Lemma parameter_switches_parameterless_filter_off_witness :
  Tq.apply_filters 0 ["b"; "a"] ["sort:x"] = Done ["b"; "a"].
Proof.
  apply (parameter_switches_parameterless_filter_off "sort" "x").
  by_evaluation.
Defined.

(** X21: a segment whose name is not the name of a filter, and which does
    not start with [col-width], [indent], [pad-left], [pad-right] or
    [truncate], can be left out of the chain: no error is raised for it and
    the Document goes on as it is.  The empty segment between two pipes is
    such a segment. *)
Theorem unknown_segment_is_skipped
    (f : string) (chain : list string) (fuel : nat) (D : list string) :
  invocation_name f ∉ registered_names →
  (∀ p, p ∈ prefix_tested_names → Str.startswith p f = false) →
  Tq.apply_filters fuel D (f :: chain) = Tq.apply_filters fuel D chain.
Proof.
  intros Hname Hprefix.
  change (Tq.apply_filter fuel D f ≫= (λ D', Tq.apply_filters fuel D' chain)
          = Tq.apply_filters fuel D chain).
  by rewrite unknown_name_passes.
Qed.

(** The theorem at the chain of [upper||reverse], whose first segment is
    misspelled and whose second is empty. *)
Lemma unknown_segment_is_skipped_witness :
  Tq.apply_filters 0 ["ab"] (Tq.parse_filter_string (Some "upper||reverse"))
  = Done ["ba"].
Proof.
  assert (∀ p, p ∈ prefix_tested_names → Str.startswith p "upper" = false)
    as Hupper.
  { intros p Hp. unfold prefix_tested_names in Hp.
    rewrite !elem_of_cons, elem_of_nil in Hp.
    destruct_or!; try done; subst p; reflexivity. }
  assert (∀ p, p ∈ prefix_tested_names → Str.startswith p "" = false)
    as Hempty.
  { intros p Hp. unfold prefix_tested_names in Hp.
    rewrite !elem_of_cons, elem_of_nil in Hp.
    destruct_or!; try done; subst p; reflexivity. }
  change (Tq.parse_filter_string (Some "upper||reverse"))
    with ["upper"; ""; "reverse"].
  rewrite (unknown_segment_is_skipped "upper" [""; "reverse"] 0 ["ab"]
             ltac:(by_evaluation) Hupper).
  rewrite (unknown_segment_is_skipped "" ["reverse"] 0 ["ab"]
             ltac:(by_evaluation) Hempty).
  reflexivity.
Defined.

(** X22: without a parameter, [indent] indents by 4, [truncate] and
    [col-width] take 10, and [pad-left] and [pad-right] pad to 10 with
    spaces. *)
Theorem default_parameters (fuel : nat) (D : list string) :
  Tq.apply_filters fuel D ["indent"] = Tq.apply_filters fuel D ["indent:4"] ∧
  Tq.apply_filters fuel D ["truncate"]
    = Tq.apply_filters fuel D ["truncate:10"] ∧
  Tq.apply_filters fuel D ["col-width"]
    = Tq.apply_filters fuel D ["col-width:10"] ∧
  Tq.apply_filters fuel D ["pad-left"]
    = Tq.apply_filters fuel D ["pad-left:10"] ∧
  Tq.apply_filters fuel D ["pad-right"]
    = Tq.apply_filters fuel D ["pad-right:10"] ∧
  Tq.apply_filters fuel D ["pad-left"]
    = Done ((λ l, Str.padding l 10 " " +:+ l) <$> D) ∧
  Tq.apply_filters fuel D ["pad-right"]
    = Done ((λ l, l +:+ Str.padding l 10 " ") <$> D).
Proof.
  assert (∀ (g : string → string),
            for_each (λ l, Done (g l)) D = Done (g <$> D)) as Hmap.
  { intros g. induction D as [|l D' IH]; [done|]. simpl. by rewrite IH. }
  assert (∀ f, Tq.apply_filters fuel D [f]
               = Tq.apply_filter fuel D f ≫= λ D', Done D') as Hstep by done.
  rewrite !Hstep.
  change "indent" with ("indent" +:+ "").
  change "indent:4" with ("indent" +:+ ":4").
  change "truncate" with ("truncate" +:+ "").
  change "truncate:10" with ("truncate" +:+ ":10").
  change "col-width" with ("col-width" +:+ "").
  change "col-width:10" with ("col-width" +:+ ":10").
  change "pad-left" with ("pad-left" +:+ "").
  change "pad-left:10" with ("pad-left" +:+ ":10").
  change "pad-right" with ("pad-right" +:+ "").
  change "pad-right:10" with ("pad-right" +:+ ":10").
  rewrite !apply_filter_indent, !apply_filter_truncate,
    !apply_filter_col_width, !apply_filter_pad_left, !apply_filter_pad_right.
  split_and!; try reflexivity.
  - change (for_each (λ l, Done (Str.padding l 10 " " +:+ l)) D
              ≫= (λ D', Done D')
            = Done ((λ l, Str.padding l 10 " " +:+ l) <$> D)).
    by rewrite Hmap.
  - change (for_each (λ l, Done (l +:+ Str.padding l 10 " ")) D
              ≫= (λ D', Done D')
            = Done ((λ l, l +:+ Str.padding l 10 " ") <$> D)).
    by rewrite Hmap.
Qed.

(** X23: the tokens of a segment after those the filter reads are ignored:
    [col-width], [indent] and [truncate] read one token after the name,
    [pad-left] and [pad-right] two. *)
Theorem tokens_after_the_parameters_are_ignored
    (name token fill rest : string) (fuel : nat) (D : list string) :
  has_char ":" token = false →
  has_char ":" fill = false →
  (name ∈ ["col-width"; "indent"; "truncate"] →
   Tq.apply_filters fuel D [name +:+ ":" +:+ token +:+ ":" +:+ rest]
   = Tq.apply_filters fuel D [name +:+ ":" +:+ token]) ∧
  (name ∈ ["pad-left"; "pad-right"] →
   Tq.apply_filters fuel D
     [name +:+ ":" +:+ token +:+ ":" +:+ fill +:+ ":" +:+ rest]
   = Tq.apply_filters fuel D [name +:+ ":" +:+ token +:+ ":" +:+ fill]).
Proof.
  intros Htoken Hfill.
  assert (∀ f, Tq.apply_filters fuel D [f]
               = Tq.apply_filter fuel D f ≫= λ D', Done D') as Hstep by done.
  rewrite !Hstep.
  split; rewrite !elem_of_cons, elem_of_nil; intros Hname;
    destruct_or!; try done; subst name.
  - rewrite !apply_filter_col_width.
    change ("col-width" +:+ ":" +:+ token +:+ ":" +:+ rest)
      with ("col-width" +:+ String ":" (token +:+ String ":" rest)).
    change ("col-width" +:+ ":" +:+ token)
      with ("col-width" +:+ String ":" token).
    rewrite !(split_field ":" "col-width") by reflexivity.
    by rewrite (split_field ":" token), (split_no_sep ":" token) by done.
  - rewrite !apply_filter_indent.
    change ("indent" +:+ ":" +:+ token +:+ ":" +:+ rest)
      with ("indent" +:+ String ":" (token +:+ String ":" rest)).
    change ("indent" +:+ ":" +:+ token)
      with ("indent" +:+ String ":" token).
    rewrite !(split_field ":" "indent") by reflexivity.
    by rewrite (split_field ":" token), (split_no_sep ":" token) by done.
  - rewrite !apply_filter_truncate.
    change ("truncate" +:+ ":" +:+ token +:+ ":" +:+ rest)
      with ("truncate" +:+ String ":" (token +:+ String ":" rest)).
    change ("truncate" +:+ ":" +:+ token)
      with ("truncate" +:+ String ":" token).
    rewrite !(split_field ":" "truncate") by reflexivity.
    by rewrite (split_field ":" token), (split_no_sep ":" token) by done.
  - rewrite !apply_filter_pad_left.
    change ("pad-left" +:+ ":" +:+ token +:+ ":" +:+ fill +:+ ":" +:+ rest)
      with ("pad-left"
            +:+ String ":" (token +:+ String ":" (fill +:+ String ":" rest))).
    change ("pad-left" +:+ ":" +:+ token +:+ ":" +:+ fill)
      with ("pad-left" +:+ String ":" (token +:+ String ":" fill)).
    rewrite !(split_field ":" "pad-left") by reflexivity.
    rewrite !(split_field ":" token) by done.
    by rewrite (split_field ":" fill), (split_no_sep ":" fill) by done.
  - rewrite !apply_filter_pad_right.
    change ("pad-right" +:+ ":" +:+ token +:+ ":" +:+ fill +:+ ":" +:+ rest)
      with ("pad-right"
            +:+ String ":" (token +:+ String ":" (fill +:+ String ":" rest))).
    change ("pad-right" +:+ ":" +:+ token +:+ ":" +:+ fill)
      with ("pad-right" +:+ String ":" (token +:+ String ":" fill)).
    rewrite !(split_field ":" "pad-right") by reflexivity.
    rewrite !(split_field ":" token) by done.
    by rewrite (split_field ":" fill), (split_no_sep ":" fill) by done.
Qed.

(** The theorem at the segments [truncate:2:and:more] and
    [pad-left:4:*:?]. *)
Lemma tokens_after_the_parameters_are_ignored_witness :
  Tq.apply_filters 0 ["abc"] ["truncate:2:and:more"]
    = Tq.apply_filters 0 ["abc"] ["truncate:2"] ∧
  Tq.apply_filters 0 ["abc"] ["pad-left:4:*:?"]
    = Tq.apply_filters 0 ["abc"] ["pad-left:4:*"].
Proof.
  split.
  - apply (proj1 (tokens_after_the_parameters_are_ignored
                    "truncate" "2" "" "and:more" 0 ["abc"]
                    eq_refl eq_refl)).
    by_evaluation.
  - apply (proj2 (tokens_after_the_parameters_are_ignored
                    "pad-left" "4" "*" "?" 0 ["abc"] eq_refl eq_refl)).
    by_evaluation.
Defined.

(** ** [count] and [length] *)

Section count.

Implicit Types (s t : string) (x : N) (z acc : Z) (b : bool).

Lemma is_nat_pretty_N_char x :
  (x < 10)%N → Ascii.is_nat (pretty_N_char x) = Some (N.to_nat x).
Proof.
  intros Hx. unfold pretty_N_char.
  repeat (destruct x as [|x] using N.peano_ind;
          [reflexivity|rewrite ?N2Nat.inj_succ]; try lia).
Qed.

End count.

Section count_parse.

Implicit Types (s t : string) (x : N) (z acc : Z) (b : bool).

(** Reading back the digits [pretty_N_go] writes before [s]. *)
Lemma digits_pretty_N_go x s b :
  (0 < x)%N →
  Int.digits 0 b (pretty_N_go x s) = Int.digits (Z.of_N x) true s.
Proof.
  revert s b. induction (N.lt_wf_0 x) as [x _ IH]; intros s b Hx.
  rewrite pretty_N_go_step by done.
  assert (x `div` 10 < x)%N as Hlt by (apply N.div_lt; lia).
  assert (x `mod` 10 < 10)%N as Hmod by (apply N.mod_lt; lia).
  assert (Z.of_N x = 10 * Z.of_N (x `div` 10) + Z.of_N (x `mod` 10))%Z as Hx10.
  { rewrite (N.div_mod x 10) at 1 by lia. lia. }
  destruct (decide (x `div` 10 = 0)%N) as [Hzero|Hpos].
  - rewrite Hzero, pretty_N_go_0. simpl.
    rewrite is_nat_pretty_N_char by done.
    f_equal. rewrite Hx10, Hzero. lia.
  - rewrite IH by (done || lia). simpl.
    rewrite is_nat_pretty_N_char by done.
    f_equal. rewrite Hx10. lia.
Qed.

Lemma digits_of_nat (n : nat) :
  Int.digits 0 false (Str.of_nat n) = Some (Z.of_nat n).
Proof.
  unfold Str.of_nat, pretty, pretty_nat, pretty, pretty_N.
  destruct (decide (N.of_nat n = 0)%N) as [H|H].
  - assert (n = 0) as -> by lia. reflexivity.
  - rewrite digits_pretty_N_go by lia. simpl. f_equal. lia.
Qed.

(** What [digits] reads has no white space in it. *)
Lemma digits_no_space acc b s z :
  Int.digits acc b s = Some z →
  all_chars (λ c, negb (Ascii.is_space c)) s = true.
Proof.
  revert acc b. induction s as [|c s IH]; intros acc b H; [done|].
  simpl in H. simpl.
  destruct (Ascii.is_nat c) as [d|] eqn:Hd.
  - rewrite (IH _ _ H), andb_true_r.
    by destruct c as [[] [] [] [] [] [] [] []].
  - destruct (Char.eqb c "_" && b) eqn:Hu; [|done].
    rewrite (IH _ _ H), andb_true_r.
    apply andb_prop in Hu as [Hu _].
    apply bool_decide_eq_true_1 in Hu as ->. reflexivity.
Qed.

Lemma all_chars_head_last p s :
  all_chars (λ c, negb (p c)) s = true →
  head_not p s = true ∧ last_not p s = true.
Proof.
  induction s as [|c s IH]; [done|].
  simpl. intros [Hc Hs]%andb_prop. split; [done|].
  destruct s as [|c' r]; [done|]. by apply IH.
Qed.

(** A string of digits is read by [int] as by [digits]. *)
Lemma parse_digits s z :
  Int.digits 0 false s = Some z → Int.parse s = Some z.
Proof.
  intros H. unfold Int.parse, Str.strip_by.
  destruct (all_chars_head_last Ascii.is_space s (digits_no_space _ _ _ _ H))
    as [Hhead Hlast].
  rewrite (lstrip_by_id _ _ Hhead), (rstrip_by_id _ _ Hlast).
  destruct s as [|c r]; [done|]. unfold Int.signed.
  destruct c as [[] [] [] [] [] [] [] []]; try exact H; by simpl in H.
Qed.

End count_parse.

(** X24: [count] and [length] are the same filter; it replaces a line by its
    number of characters in decimal digits, which [int] reads back as that
    number, and two lines get the same count only when they have the same
    number of characters. *)
Theorem count_is_the_decimal_length (line other : string) (fuel : nat)
    (D : list string) :
  Tq.count line = Tq.length line ∧
  Int.parse (Tq.count line) = Some (Z.of_nat (Str.len line)) ∧
  (Tq.count line = Tq.count other ↔ Str.len line = Str.len other) ∧
  Tq.apply_filters fuel D ["count"] = Done (Tq.count <$> D) ∧
  Tq.apply_filters fuel D ["length"] = Done (Tq.count <$> D).
Proof.
  split_and!.
  - reflexivity.
  - apply parse_digits, digits_of_nat.
  - unfold Tq.count, Str.of_nat. split; [|by intros ->].
    intros H. by apply (inj pretty) in H.
  - change (Tq.apply_filter fuel D "count" ≫= (λ D', Done D')
            = Done (Tq.count <$> D)).
    rewrite (apply_filter_lambda fuel D "count" Tq.count); [done|done|..].
    + by_evaluation.
    + intros p Hp. unfold prefix_tested_names in Hp.
      rewrite !elem_of_cons, elem_of_nil in Hp.
      destruct_or!; try done; subst p; reflexivity.
  - change (Tq.apply_filter fuel D "length" ≫= (λ D', Done D')
            = Done (Tq.count <$> D)).
    rewrite (apply_filter_lambda fuel D "length" Tq.length); [done|done|..].
    + by_evaluation.
    + intros p Hp. unfold prefix_tested_names in Hp.
      rewrite !elem_of_cons, elem_of_nil in Hp.
      destruct_or!; try done; subst p; reflexivity.
Qed.

(** ** The filters that rewrite names *)

Section all_chars_lemmas.

Implicit Types (s t : string) (p : ascii → bool) (f : ascii → ascii).

Lemma all_chars_app p s t :
  all_chars p (s +:+ t) = all_chars p s && all_chars p t.
Proof.
  induction s as [|c s IH]; [done|].
  rewrite str_app_cons. simpl. by rewrite IH, andb_assoc.
Qed.

Lemma all_chars_map p f s :
  (∀ c, p c = true → p (f c) = true) →
  all_chars p s = true → all_chars p (Str.map f s) = true.
Proof.
  intros Hf. induction s as [|c s IH]; [done|].
  simpl. intros [Hc Hs]%andb_prop. by rewrite (Hf c Hc), IH.
Qed.

Lemma all_chars_concat p (l : list string) :
  Forall (λ w, all_chars p w = true) l → all_chars p (Str.concat l) = true.
Proof.
  induction 1 as [|w l Hw _ IH]; [done|].
  simpl. by rewrite all_chars_app, Hw, IH.
Qed.

Lemma all_chars_capitalize s :
  all_chars Char.is_alnum s = true →
  all_chars Char.is_alnum (Str.capitalize s) = true.
Proof.
  destruct s as [|c r]; [done|]. simpl. intros [Hc Hr]%andb_prop.
  rewrite is_alnum_upper, Hc. simpl.
  apply all_chars_map; [|done]. intros x. by rewrite is_alnum_lower.
Qed.

(** The words [re.split] returns are made of letters and digits. *)
Lemma re_split_go_alnum b s :
  all_chars Char.is_alnum (Re.split_go b s).1 = true ∧
  Forall (λ w, all_chars Char.is_alnum w = true) (Re.split_go b s).2.
Proof.
  revert b. induction s as [|c s IH]; intros b; [by split|].
  simpl. destruct (Char.is_alnum c) eqn:Hc.
  - destruct (IH false) as [H1 H2].
    destruct (Re.split_go false s) as [w ws]. simpl in *.
    by rewrite Hc, H1.
  - destruct b; [apply IH|].
    destruct (IH true) as [H1 H2].
    destruct (Re.split_go true s) as [w ws]. simpl in *.
    split; [done|]. by constructor.
Qed.

(** A line of letters and digits is one word. *)
Lemma re_split_go_word b s :
  all_chars Char.is_alnum s = true → Re.split_go b s = (s, []).
Proof.
  revert b. induction s as [|c s IH]; intros b; [done|].
  simpl. intros [Hc Hs]%andb_prop. by rewrite Hc, (IH false Hs).
Qed.

Lemma lower_no_upper s :
  all_chars (λ c, negb (Char.is_upper c)) (Str.lower s) = true.
Proof.
  unfold Str.lower. induction s as [|c s IH]; [done|].
  simpl. rewrite IH, andb_true_r. by_cases_on_char c.
Qed.

Lemma lower_id s :
  all_chars (λ c, negb (Char.is_upper c)) s = true → Str.lower s = s.
Proof.
  unfold Str.lower. induction s as [|c s IH]; [done|].
  simpl. intros [Hc Hs]%andb_prop. rewrite (IH Hs).
  unfold Char.lower. by destruct (Char.is_upper c).
Qed.

End all_chars_lemmas.

Section separators.

(** The separator of [snake-case] or [kebab-case]: a character that is
    neither a letter nor a digit. *)
Variable u : ascii.
Hypothesis u_not_alnum : Char.is_alnum u = false.

Implicit Types (s t : string) (b : bool).

Abbreviation is_u := (λ c : ascii, Char.eqb c u).

Lemma is_u_alnum c : Char.is_alnum c = true → is_u c = false.
Proof.
  intros Hc. unfold Char.eqb. apply bool_decide_eq_false_2. intros ->.
  by rewrite u_not_alnum in Hc.
Qed.

Lemma is_u_lower c : is_u (Char.lower c) = is_u c.
Proof.
  unfold Char.lower. destruct (Char.is_upper c) eqn:Hc; [|done].
  assert (Char.is_alnum c = true) as Hal
    by (unfold Char.is_alnum; by rewrite Hc, orb_true_r).
  rewrite (is_u_alnum c Hal). apply is_u_alnum.
  rewrite <- (is_alnum_lower c) in Hal. unfold Char.lower in Hal.
  by rewrite Hc in Hal.
Qed.

Lemma sub_separated b s :
  separated u b (Re.sub_go (String u "") b s) = true.
Proof.
  revert b. induction s as [|c s IH]; intros b; [done|].
  simpl. destruct (Char.is_alnum c) eqn:Hc.
  - simpl. by rewrite Hc.
  - destruct b; [apply IH|].
    change (separated u false (String u (Re.sub_go (String u "") true s))
            = true).
    simpl. rewrite u_not_alnum, (IH true).
    unfold Char.eqb. by rewrite bool_decide_eq_true_2.
Qed.

Lemma separated_weaken s : separated u true s = true → separated u false s = true.
Proof.
  destruct s as [|c s]; [done|]. simpl.
  destruct (Char.is_alnum c); [done|].
  by rewrite andb_false_r.
Qed.

Lemma separated_head s : separated u true s = true → head_not is_u s = true.
Proof.
  destruct s as [|c s]; [done|]. simpl.
  destruct (Char.is_alnum c) eqn:Hc.
  - intros _. by rewrite is_u_alnum.
  - by rewrite andb_false_r.
Qed.

Lemma separated_lstrip b s :
  separated u b s = true → separated u true (Str.lstrip_by is_u s) = true.
Proof.
  revert b. induction s as [|c s IH]; intros b; [done|].
  simpl. destruct (Char.is_alnum c) eqn:Hc.
  - intros H. rewrite is_u_alnum by done. simpl. by rewrite Hc.
  - intros [[Hu _]%andb_prop H]%andb_prop.
    rewrite Hu. by apply (IH true).
Qed.

Lemma separated_rstrip b s :
  separated u b s = true → separated u b (Str.rstrip_by is_u s) = true.
Proof.
  revert b. induction s as [|c s IH]; intros b; [done|].
  simpl. destruct (Char.is_alnum c) eqn:Hc.
  - intros H. specialize (IH false H).
    destruct (Str.rstrip_by is_u s) as [|c' r].
    + rewrite is_u_alnum by done. simpl. by rewrite Hc.
    + simpl. by rewrite Hc.
  - intros [[Hu Hb]%andb_prop H]%andb_prop. specialize (IH true H).
    destruct (Str.rstrip_by is_u s) as [|c' r].
    + by rewrite Hu.
    + simpl. rewrite Hc, Hu, Hb. exact IH.
Qed.

Lemma separated_lower b s :
  separated u b s = true → separated u b (Str.lower s) = true.
Proof.
  unfold Str.lower. revert b. induction s as [|c s IH]; intros b; [done|].
  simpl. rewrite is_alnum_lower, is_u_lower.
  destruct (Char.is_alnum c).
  - apply IH.
  - intros [Hc H]%andb_prop. by rewrite Hc, (IH true H).
Qed.

(** [re.sub] leaves a line that is separated already. *)
Lemma sub_id b s :
  separated u b s = true → Re.sub_go (String u "") b s = s.
Proof.
  revert b. induction s as [|c s IH]; intros b; [done|].
  simpl. destruct (Char.is_alnum c).
  - intros H. by rewrite (IH false H).
  - intros [[Hu Hb]%andb_prop H]%andb_prop.
    apply bool_decide_eq_true_1 in Hu as ->.
    destruct b; [done|]. by rewrite (IH true H).
Qed.

Lemma slug_shape line :
  separated u true (slug u line) = true ∧
  last_not is_u (slug u line) = true ∧
  all_chars (λ c, negb (Char.is_upper c)) (slug u line) = true.
Proof.
  unfold slug, Str.strip_by, Re.sub. split_and!.
  - apply separated_lower, separated_rstrip, (separated_lstrip false),
      sub_separated.
  - unfold Str.lower. rewrite last_not_map by apply is_u_lower.
    apply rstrip_by_last_not.
  - apply lower_no_upper.
Qed.

Lemma slug_fixed s :
  separated u true s = true → last_not is_u s = true →
  all_chars (λ c, negb (Char.is_upper c)) s = true →
  slug u s = s.
Proof.
  intros Hsep Hlast Hlow. unfold slug, Re.sub, Str.strip_by.
  rewrite (sub_id false) by by apply separated_weaken.
  rewrite lstrip_by_id by by apply separated_head.
  rewrite rstrip_by_id by done. by apply lower_id.
Qed.

Lemma slug_word s :
  all_chars Char.is_alnum s = true → slug u s = Str.lower s.
Proof.
  intros Hs.
  assert (∀ b, separated u b s = true) as Hsep.
  { induction s as [|c s IH]; intros b; [done|].
    simpl in *. apply andb_prop in Hs as [Hc Hs]. rewrite Hc. by apply IH. }
  assert (last_not is_u s = true) as Hlast.
  { apply (all_chars_head_last is_u). clear Hsep.
    induction s as [|c s IH]; [done|].
    simpl in *. apply andb_prop in Hs as [Hc Hs].
    by rewrite is_u_alnum, IH. }
  unfold slug, Re.sub, Str.strip_by.
  rewrite (sub_id false) by done.
  rewrite lstrip_by_id by by apply separated_head.
  by rewrite rstrip_by_id.
Qed.

End separators.

(** X25: what [snake-case] returns is made of lower-case letters, digits and
    single underscores, and neither starts nor ends with an underscore;
    [snake-case] is idempotent.  The same holds for [kebab-case] and the
    hyphen. *)
Theorem snake_and_kebab_case_shape (line : string) :
  separated "_" true (Tq.snake_case line) = true ∧
  last_not (λ c, Char.eqb c "_") (Tq.snake_case line) = true ∧
  all_chars (λ c, negb (Char.is_upper c)) (Tq.snake_case line) = true ∧
  Tq.snake_case (Tq.snake_case line) = Tq.snake_case line ∧
  separated "-" true (Tq.kebab_case line) = true ∧
  last_not (λ c, Char.eqb c "-") (Tq.kebab_case line) = true ∧
  all_chars (λ c, negb (Char.is_upper c)) (Tq.kebab_case line) = true ∧
  Tq.kebab_case (Tq.kebab_case line) = Tq.kebab_case line.
Proof.
  destruct (slug_shape "_" eq_refl line) as (S1 & S2 & S3).
  destruct (slug_shape "-" eq_refl line) as (K1 & K2 & K3).
  split_and!; try done.
  - by apply (slug_fixed "_" eq_refl).
  - by apply (slug_fixed "-" eq_refl).
Qed.

(** X26: [camel-case] and [pascal-case] return letters and digits only:
    nothing of what separates the words of the line is left. *)
Theorem camel_and_pascal_case_alnum (line : string) :
  all_chars Char.is_alnum (Tq.camel_case line) = true ∧
  all_chars Char.is_alnum (Tq.pascal_case line) = true.
Proof.
  unfold Tq.camel_case, Tq.pascal_case, Re.split.
  destruct (re_split_go_alnum false line) as [Hw Hws].
  destruct (Re.split_go false line) as [w ws]. simpl in Hw, Hws.
  assert (Forall (λ w, all_chars Char.is_alnum w = true)
            (Str.capitalize <$> ws)) as Hcap.
  { apply Forall_fmap. eapply Forall_impl; [exact Hws|].
    intros x. apply all_chars_capitalize. }
  split.
  - rewrite all_chars_app, (all_chars_concat _ _ Hcap), andb_true_r.
    apply all_chars_map; [|done]. intros c. by rewrite is_alnum_lower.
  - rewrite fmap_cons.
    change (Str.concat (?x :: ?l)) with (x +:+ Str.concat l).
    rewrite all_chars_app, (all_chars_concat _ _ Hcap), andb_true_r.
    by apply all_chars_capitalize.
Qed.

(** X27: on a line made of letters and digits only, which is one word,
    [snake-case], [kebab-case] and [camel-case] give the line in lower case
    and [pascal-case] gives it capitalized. *)
Theorem one_word_line (line : string) :
  all_chars Char.is_alnum line = true →
  Tq.snake_case line = Tq.lowercase line ∧
  Tq.kebab_case line = Tq.lowercase line ∧
  Tq.camel_case line = Tq.lowercase line ∧
  Tq.pascal_case line = Tq.capitalize line.
Proof.
  intros H. split_and!.
  - by apply (slug_word "_" eq_refl).
  - by apply (slug_word "-" eq_refl).
  - unfold Tq.camel_case, Re.split. rewrite re_split_go_word by done.
    simpl. apply str_app_nil_r.
  - unfold Tq.pascal_case, Re.split. rewrite re_split_go_word by done.
    simpl. apply str_app_nil_r.
Qed.

(** The theorem at the line [fooBar42]. *)
Lemma one_word_line_witness :
  Tq.snake_case "fooBar42" = "foobar42" ∧ Tq.pascal_case "fooBar42" = "Foobar42".
Proof.
  destruct (one_word_line "fooBar42" eq_refl) as (H1 & _ & _ & H4).
  split; [exact H1|exact H4].
Defined.

(** ** The segments of an expression *)

Section segments.

Implicit Types (s : string) (sep : ascii).

Lemma split_go_fields sep s :
  length (Str.split_go sep s).2 = count_char sep s ∧
  has_char sep (Str.split_go sep s).1 = false ∧
  Forall (λ f, has_char sep f = false) (Str.split_go sep s).2.
Proof.
  induction s as [|c s (Hlen & Hfirst & Hrest)]; [by split_and!|].
  simpl. destruct (Str.split_go sep s) as [w ws]. simpl in *.
  destruct (Char.eqb c sep) eqn:Hc; simpl.
  - split_and!; [by rewrite Hlen|done|by constructor].
  - by rewrite Hc, Hfirst.
Qed.

End segments.

(** X28: an expression that is not empty and has [k] pipes is parsed to
    [k + 1] segments; each of them is stripped, so that stripping it again
    changes nothing, and has no pipe in it. *)
Theorem parser_gives_stripped_segments (expression : string) :
  expression ≠ "" →
  length (Tq.parse_filter_string (Some expression))
    = S (count_char "|" expression) ∧
  Forall (λ f, Str.strip f = f ∧ has_char "|" f = false)
    (Tq.parse_filter_string (Some expression)).
Proof.
  intros Hne. rewrite parse_nonempty by done. unfold Str.split.
  destruct (split_go_fields "|" expression) as (Hlen & Hfirst & Hrest).
  destruct (Str.split_go "|" expression) as [w ws]. simpl in Hlen, Hfirst, Hrest.
  split.
  - rewrite length_fmap. simpl. by rewrite Hlen.
  - apply Forall_fmap, Forall_cons. split.
    + split; [apply strip_by_twice|].
      by apply has_char_rstrip_by, has_char_lstrip_by.
    + eapply Forall_impl; [exact Hrest|]. intros f Hf. split.
      * apply strip_by_twice.
      * by apply has_char_rstrip_by, has_char_lstrip_by.
Qed.

(** The theorem at the expression [ trim | sort |unique ]. *)
Lemma parser_gives_stripped_segments_witness :
  length (Tq.parse_filter_string (Some " trim | sort |unique ")) = 3.
Proof.
  apply (proj1 (parser_gives_stripped_segments " trim | sort |unique "
                  ltac:(discriminate))).
Defined.
